(** * CounterBridge: the consumer engine, its aggregator and the Mongo provider

    A shallow embedding of
    - [packages/core/src/aggregator.ts]  (class [Aggregator]),
    - [packages/core/src/consumer.ts]    (class [CounterBridge]),
    - [packages/provider-mongo/src/provider.ts] (class [MongoProvider]),
    followed by the properties of the specification that concern them.

    Conventions of the embedding.
    - A JavaScript [Map<string, number>] is a [gmap string number]: the
      properties below never depend on the iteration order of a Map, and
      [map_to_list] stands for it where the source iterates.
    - A JavaScript [number] is the type [JS.number]: a decimal value, [NaN]
      or a signed infinity.  Arithmetic is exact; the rounding of binary64
      is outside the model, so the model agrees with JavaScript on the
      integers of magnitude below 2^53 (and the sign of zero is dropped).
    - Asynchronous methods are programs of a state-and-exception monad over
      the fields of the object; the answers of the outside world (provider,
      Redis, clock) come from an [Env] record, and every call to the outside
      is appended to a trace.
    - An [await] is a suspension: the [Env] also says which reads the read
      loop completes while [provider.flush] or [xack] is pending, and these
      are folded into the state before the suspended method goes on.
    - [stop], [get], [getBatch] and [getStats] play no part in the
      properties below and are not embedded. *)

From Stdlib Require Import ZArith Lia Bool Ascii String List Permutation DecimalPos.
From stdpp Require Import base option list strings gmap fin_maps.

Local Open Scope Z_scope.

(* ================================================================== *)
(** ** JavaScript values used by the code *)
(* ================================================================== *)

Module JS.

(** [Dec m e] is the decimal m / 10^e; it is normal when [e = 0] or 10
    does not divide [m].  The integers are the [Dec z 0]. *)
Inductive number :=
| NaN
| Infinity (negative : bool)
| Dec (m : Z) (e : nat).

Definition Int (z : Z) : number := Dec z 0.

#[global] Instance number_eq_dec : EqDecision number.
Proof. solve_decision. Defined.

Definition is_integer (x : number) : bool :=
  match x with Dec _ O => true | _ => false end.


Definition is_NaN (x : number) : bool :=
  match x with NaN => true | _ => false end.

(** Strip the trailing zeros of a decimal fraction. *)
Fixpoint norm (m : Z) (e : nat) : number :=
  match e with
  | O => Dec m 0
  | S e' => if (m mod 10 =? 0) then norm (m / 10) e' else Dec m e
  end.

Definition pow10 (n : nat) : Z := 10 ^ Z.of_nat n.

(** The operator [+] on numbers. *)
Definition plus (x y : number) : number :=
  match x, y with
  | NaN, _ | _, NaN => NaN
  | Infinity a, Infinity b => if Bool.eqb a b then Infinity a else NaN
  | Infinity a, Dec _ _ => Infinity a
  | Dec _ _, Infinity b => Infinity b
  | Dec m1 e1, Dec m2 e2 =>
      let e := Nat.max e1 e2 in
      norm (m1 * pow10 (e - e1) + m2 * pow10 (e - e2)) e
  end.

(** *** [Number(string)]: the StringToNumber conversion

    The grammar of StringNumericLiteral: optional white space around an
    optionally signed [Infinity] or decimal literal (digits, fraction,
    exponent), or an unsigned [0x], [0o], [0b] integer; the empty string
    is 0 and every other text is [NaN].  Only the ASCII white space
    characters are recognised. *)

Definition is_white (c : ascii) : bool :=
  let n := nat_of_ascii c in
  ((9 <=? n) && (n <=? 13) || (n =? 32))%nat.

Definition digit_of (base : nat) (c : ascii) : option Z :=
  let n := nat_of_ascii c in
  let v :=
    if ((48 <=? n) && (n <=? 57))%nat then Some (n - 48)%nat
    else if ((97 <=? n) && (n <=? 102))%nat then Some (n - 87)%nat
    else if ((65 <=? n) && (n <=? 70))%nat then Some (n - 55)%nat
    else None in
  match v with
  | Some d => if (d <? base)%nat then Some (Z.of_nat d) else None
  | None => None
  end.

(** The longest prefix of digits, as their values, and what follows it. *)
Fixpoint span_digits (base : nat) (cs : list ascii) : list Z * list ascii :=
  match cs with
  | [] => ([], [])
  | c :: cs' =>
      match digit_of base c with
      | Some d => let '(ds, rest) := span_digits base cs' in (d :: ds, rest)
      | None => ([], cs)
      end
  end.

Definition digits_value (base : Z) (ds : list Z) : Z :=
  fold_left (fun acc d => acc * base + d) ds 0.

Fixpoint drop_white (cs : list ascii) : list ascii :=
  match cs with
  | c :: cs' => if is_white c then drop_white cs' else cs
  | [] => []
  end.

Definition trim (cs : list ascii) : list ascii :=
  rev (drop_white (rev (drop_white cs))).

(** An optional sign: [true] when negative. *)
Definition take_sign (cs : list ascii) : bool * list ascii :=
  match cs with
  | "+"%char :: r => (false, r)
  | "-"%char :: r => (true, r)
  | _ => (false, cs)
  end.

(** ExponentPart, which must end the literal; [Some 0] when absent. *)
Definition exponent_part (cs : list ascii) : option Z :=
  match cs with
  | [] => Some 0
  | c :: r =>
      if (Ascii.eqb c "e" || Ascii.eqb c "E")%bool then
        let '(neg, r1) := take_sign r in
        match span_digits 10 r1 with
        | ((_ :: _) as ds, []) =>
            let x := digits_value 10 ds in Some (if neg then - x else x)
        | _ => None
        end
      else None
  end.

(** The value m * 10^x / 10^f of a literal with mantissa digits [m],
    [f] fraction digits and exponent [x]. *)
Definition scaled (m : Z) (f : nat) (x : Z) : number :=
  let s := x - Z.of_nat f in
  if (0 <=? s) then Dec (m * 10 ^ s) 0 else norm m (Z.to_nat (- s)).

Definition unsigned_decimal (cs : list ascii) : option number :=
  let '(ip, r) := span_digits 10 cs in
  let '(fp, r1, dot) :=
    match r with
    | "."%char :: r' => let '(fp, r1) := span_digits 10 r' in (fp, r1, true)
    | _ => ([], r, false)
    end in
  if (Nat.eqb (length ip) 0 && Nat.eqb (length fp) 0)%bool then None
  else
    match exponent_part r1 with
    | Some x => Some (scaled (digits_value 10 (ip ++ fp)) (length fp) x)
    | None => None
    end.

Definition negate (x : number) : number :=
  match x with
  | NaN => NaN
  | Infinity b => Infinity (negb b)
  | Dec m e => Dec (- m) e
  end.

Definition str_decimal (cs : list ascii) : option number :=
  let '(neg, r) := take_sign cs in
  let v :=
    if decide (r = list_ascii_of_string "Infinity") then Some (Infinity false)
    else unsigned_decimal r in
  (fun x => if neg then negate x else x) <$> v.

Definition non_decimal (cs : list ascii) : option number :=
  match cs with
  | "0"%char :: p :: r =>
      let base : option nat :=
        if (Ascii.eqb p "x" || Ascii.eqb p "X")%bool then Some 16%nat
        else if (Ascii.eqb p "o" || Ascii.eqb p "O")%bool then Some 8%nat
        else if (Ascii.eqb p "b" || Ascii.eqb p "B")%bool then Some 2%nat
        else None in
      match base with
      | Some b =>
          match span_digits b r with
          | ((_ :: _) as ds, []) => Some (Int (digits_value (Z.of_nat b) ds))
          | _ => None
          end
      | None => None
      end
  | _ => None
  end.

Definition Number (s : string) : number :=
  let cs := trim (list_ascii_of_string s) in
  match cs with
  | [] => Int 0
  | _ =>
      match non_decimal cs with
      | Some v => v
      | None => default NaN (str_decimal cs)
      end
  end.

(** [Math.round(a / b)] for non-negative integers [a] and positive [b]:
    the quotient rounded to the nearest integer, halves upwards. *)
Definition Math_round_div (a b : nat) : nat := ((2 * a + b) / (2 * b))%nat.

(** [String.prototype.includes]. *)
Fixpoint includes (needle hay : string) : bool :=
  String.prefix needle hay ||
  match hay with
  | EmptyString => false
  | String _ hay' => includes needle hay'
  end.

(** The values [JSON.parse] yields. *)
#[warnings="-register-all"]
Inductive json :=
| JNull
| JBool (b : bool)
| JNumber (n : number)
| JString (s : string)
| JArray (items : list json)
| JObject (members : list (string * json)).

(** *** [String(number)]

    The plain decimal notation, which is what JavaScript prints for the
    integers and decimal fractions of magnitude from 1e-6 up to 1e21. *)

Fixpoint uint_chars (d : Decimal.uint) : list ascii :=
  match d with
  | Decimal.Nil => []
  | Decimal.D0 d' => "0"%char :: uint_chars d'
  | Decimal.D1 d' => "1"%char :: uint_chars d'
  | Decimal.D2 d' => "2"%char :: uint_chars d'
  | Decimal.D3 d' => "3"%char :: uint_chars d'
  | Decimal.D4 d' => "4"%char :: uint_chars d'
  | Decimal.D5 d' => "5"%char :: uint_chars d'
  | Decimal.D6 d' => "6"%char :: uint_chars d'
  | Decimal.D7 d' => "7"%char :: uint_chars d'
  | Decimal.D8 d' => "8"%char :: uint_chars d'
  | Decimal.D9 d' => "9"%char :: uint_chars d'
  end.

(** The digits of a natural number; ["0"] for zero. *)
Definition magnitude_chars (z : Z) : list ascii :=
  match z with
  | Zpos p | Zneg p => uint_chars (Pos.to_uint p)
  | Z0 => ["0"%char]
  end.

Definition sign_chars (z : Z) : list ascii :=
  match z with
  | Zneg _ => ["-"%char]
  | _ => []
  end.

(** The digits of [m] with the point [e] places from the right. *)
Definition fraction_chars (m : Z) (e : nat) : list ascii :=
  let ds := magnitude_chars m in
  let padded := repeat "0"%char (S e - length ds) ++ ds in
  let k := (length padded - e)%nat in
  sign_chars m ++ firstn k padded ++ "."%char :: skipn k padded.

Definition String (x : number) : string :=
  match x with
  | NaN => "NaN"
  | Infinity false => "Infinity"
  | Infinity true => "-Infinity"
  | Dec m e =>
      match norm m e with
      | Dec m' O => string_of_list_ascii (sign_chars m' ++ magnitude_chars m')
      | Dec m' e' => string_of_list_ascii (fraction_chars m' e')
      | _ => "NaN"
      end
  end.

End JS.

(* ================================================================== *)
(** ** The shared types ([packages/types]) *)
(* ================================================================== *)

(** [CounterEvent]: [metadata] and [timestamp] are optional. *)
Record CounterEvent := {
  scope : string;
  delta : JS.number;
  metadata : option JS.json;
  timestamp : option JS.number;
}.

(** [FlushResult]: [failed] is optional. *)
Record FlushResult := {
  failed : option (gmap string JS.number);
}.

Record SyncStats := {
  eventsProcessed : nat;
  flushCount : nat;
  lastFlushAt : option Z;
  pendingMessages : nat;
  avgBatchSize : nat;
  errorCount : nat;
}.

(** A thrown value: an [Error] with its [name] and, when it has one, its
    [message]. *)
Record Error := {
  name : string;
  message : option string;
}.

(** How a call to the outside world ends. *)
Inductive Outcome (A : Type) :=
| Resolves (a : A)
| Rejects (err : Error).
Arguments Resolves {A} a.
Arguments Rejects {A} err.

(* ================================================================== *)
(** ** [Aggregator] ([packages/core/src/aggregator.ts]) *)
(* ================================================================== *)

Module Aggregator.

Record t := {
  deltas : gmap string JS.number;
  count : nat;
}.

(** [new Aggregator()] *)
Definition new : t := {| deltas := ∅; count := 0 |}.

Definition add (event : CounterEvent) (a : t) : t :=
  let current := default (JS.Int 0) (deltas a !! scope event) in
  {| deltas := <[scope event := JS.plus current (delta event)]> (deltas a);
     count := S (count a) |}.

Definition scopeCount (a : t) : nat := size (deltas a).

Definition size (a : t) : nat := count a.

(** [drain] returns the batch and leaves a fresh state. *)
Definition drain (a : t) : gmap string JS.number * t :=
  let batch := deltas a in
  (batch, {| deltas := ∅; count := 0 |}).

(** Adding a sequence of events, first to last. *)
Definition add_all (events : list CounterEvent) (a : t) : t :=
  fold_left (fun acc e => add e acc) events a.

End Aggregator.

(* ================================================================== *)
(** ** [CounterBridge] ([packages/core/src/consumer.ts]) *)
(* ================================================================== *)

Module CounterBridge.

(** *** What the bridge emits and calls *)

Inductive WarnDetail :=
| Fields (fields : list string)
| Scope (scope : string)
| Scopes (failedScopes totalScopes : nat).

Inductive Emitted :=
| Started
| Stopped
| Flush (scopeCount flushNumber : nat)
| Recovery (messageCount : nat)
| Warn (message : string) (detail : WarnDetail)
| Failure (err : Error).

(** The calls that leave the object, in the order they are made (those of
    [stop] included, for the record). *)
Inductive Effect :=
| Emit (e : Emitted)
| ProviderInitialize
| ProviderFlush (batch : gmap string JS.number)
| ProviderClose
| XGroupCreate (streamKey groupName : string)
| XReadGroup (cursor : string) (block : option nat)
| XAck (ids : list string)
| RedisQuit
| SetTimeout (ms : nat)
| ClearTimeout.

(** *** The fields of the object *)

Record Bridge := {
  aggregator : Aggregator.t;
  running : bool;
  flushing : bool;          (* [this.flushing] holds a promise *)
  flushTimer : bool;        (* [this.flushTimer] holds a timer *)
  pendingIds : list string;
  streamKey : string;
  groupName : string;
  windowMs : nat;
  maxBatchSize : nat;
  stats : SyncStats;
  trace : list Effect;
}.

(** The state the constructor leaves. *)
Definition new (streamKey groupName : string) (windowMs maxBatchSize : nat) : Bridge :=
  {| aggregator := Aggregator.new; running := false; flushing := false;
     flushTimer := false; pendingIds := [];
     streamKey := streamKey; groupName := groupName;
     windowMs := windowMs; maxBatchSize := maxBatchSize;
     stats := {| eventsProcessed := 0; flushCount := 0; lastFlushAt := None;
                 pendingMessages := 0; avgBatchSize := 0; errorCount := 0 |};
     trace := [] |}.

Definition with_aggregator (a : Aggregator.t) (b : Bridge) : Bridge :=
  {| aggregator := a; running := running b; flushing := flushing b;
     flushTimer := flushTimer b; pendingIds := pendingIds b;
     streamKey := streamKey b; groupName := groupName b;
     windowMs := windowMs b; maxBatchSize := maxBatchSize b;
     stats := stats b; trace := trace b |}.

Definition with_running (r : bool) (b : Bridge) : Bridge :=
  {| aggregator := aggregator b; running := r; flushing := flushing b;
     flushTimer := flushTimer b; pendingIds := pendingIds b;
     streamKey := streamKey b; groupName := groupName b;
     windowMs := windowMs b; maxBatchSize := maxBatchSize b;
     stats := stats b; trace := trace b |}.

Definition with_flushing (f : bool) (b : Bridge) : Bridge :=
  {| aggregator := aggregator b; running := running b; flushing := f;
     flushTimer := flushTimer b; pendingIds := pendingIds b;
     streamKey := streamKey b; groupName := groupName b;
     windowMs := windowMs b; maxBatchSize := maxBatchSize b;
     stats := stats b; trace := trace b |}.

Definition with_flushTimer (f : bool) (b : Bridge) : Bridge :=
  {| aggregator := aggregator b; running := running b; flushing := flushing b;
     flushTimer := f; pendingIds := pendingIds b;
     streamKey := streamKey b; groupName := groupName b;
     windowMs := windowMs b; maxBatchSize := maxBatchSize b;
     stats := stats b; trace := trace b |}.

Definition with_pendingIds (ids : list string) (b : Bridge) : Bridge :=
  {| aggregator := aggregator b; running := running b; flushing := flushing b;
     flushTimer := flushTimer b; pendingIds := ids;
     streamKey := streamKey b; groupName := groupName b;
     windowMs := windowMs b; maxBatchSize := maxBatchSize b;
     stats := stats b; trace := trace b |}.

Definition with_stats (s : SyncStats) (b : Bridge) : Bridge :=
  {| aggregator := aggregator b; running := running b; flushing := flushing b;
     flushTimer := flushTimer b; pendingIds := pendingIds b;
     streamKey := streamKey b; groupName := groupName b;
     windowMs := windowMs b; maxBatchSize := maxBatchSize b;
     stats := s; trace := trace b |}.

Definition with_trace (t : list Effect) (b : Bridge) : Bridge :=
  {| aggregator := aggregator b; running := running b; flushing := flushing b;
     flushTimer := flushTimer b; pendingIds := pendingIds b;
     streamKey := streamKey b; groupName := groupName b;
     windowMs := windowMs b; maxBatchSize := maxBatchSize b;
     stats := stats b; trace := t |}.

(** *** The monad of the methods: state, and a value returned or thrown *)

Inductive Result (A : Type) :=
| Returned (a : A) (b : Bridge)
| Thrown (err : Error) (b : Bridge).
Arguments Returned {A} a b.
Arguments Thrown {A} err b.

Definition M (A : Type) : Type := Bridge -> Result A.

Definition ret {A} (a : A) : M A := fun b => Returned a b.

Definition bind {A B} (m : M A) (k : A -> M B) : M B :=
  fun b =>
    match m b with
    | Returned a b' => k a b'
    | Thrown err b' => Thrown err b'
    end.

Definition throw {A} (err : Error) : M A := fun b => Thrown err b.

(** [try { body } catch (err) { handler }] *)
Definition try_catch {A} (body : M A) (handler : Error -> M A) : M A :=
  fun b =>
    match body b with
    | Returned a b' => Returned a b'
    | Thrown err b' => handler err b'
    end.

(** [try { body } finally { after }], for an [after] that does not throw. *)
Definition try_finally {A} (body : M A) (after : Bridge -> Bridge) : M A :=
  fun b =>
    match body b with
    | Returned a b' => Returned a (after b')
    | Thrown err b' => Thrown err (after b')
    end.

Definition get {A} (f : Bridge -> A) : M A := fun b => Returned (f b) b.

Definition modify (f : Bridge -> Bridge) : M unit := fun b => Returned tt (f b).

Declare Scope bridge_scope.
Delimit Scope bridge_scope with bridge.
Notation "'let*' x ':=' m 'in' k" := (bind m (fun x => k))
  (at level 10, x name, m at level 100, k at level 200) : bridge_scope.
Notation "m '>>' k" := (bind m (fun _ => k))
  (at level 100, k at level 200, right associativity) : bridge_scope.

Definition when (c : bool) (m : M unit) : M unit := if c then m else ret tt.

(** A [for ... of] loop whose body is a program. *)
Fixpoint for_each {A} (xs : list A) (body : A -> M unit) : M unit :=
  match xs with
  | [] => ret tt
  | x :: xs' => bind (body x) (fun _ => for_each xs' body)
  end.

Definition record (e : Effect) : M unit :=
  modify (fun b => with_trace (trace b ++ [e]) b).

(** [this.emit(...)]: an event reaches the listeners; listeners are taken
    not to throw, and an ['error'] listener to be registered (as the
    consumer service does). *)
Definition emit (e : Emitted) : M unit := record (Emit e).

Definition modify_stats (f : SyncStats -> SyncStats) : M unit :=
  modify (fun b => with_stats (f (stats b)) b).

Definition incr_errorCount (s : SyncStats) : SyncStats :=
  {| eventsProcessed := eventsProcessed s; flushCount := flushCount s;
     lastFlushAt := lastFlushAt s; pendingMessages := pendingMessages s;
     avgBatchSize := avgBatchSize s; errorCount := S (errorCount s) |}.

Definition incr_eventsProcessed (s : SyncStats) : SyncStats :=
  {| eventsProcessed := S (eventsProcessed s); flushCount := flushCount s;
     lastFlushAt := lastFlushAt s; pendingMessages := pendingMessages s;
     avgBatchSize := avgBatchSize s; errorCount := errorCount s |}.

(** [aggregator.add(event)] on the field. *)
Definition aggregator_add (event : CounterEvent) : M unit :=
  modify (fun b => with_aggregator (Aggregator.add event (aggregator b)) b).

Local Open Scope bridge_scope.

(** *** The outside world *)

(** What [xreadgroup] resolves to: [null], or for each stream its
    messages, each an id and a flat list of fields. *)
Definition ReadReply : Type := option (list (string * list (string * list string))).

(** One resumption of the read loop while a flush is suspended: the
    clock it reads and the end of its pending [xreadgroup]. *)
Record Round := {
  round_now : Z;
  round_read : Outcome ReadReply;
}.

Record Env := {
  now : Z;                                   (* [Date.now()] *)
  JSON_parse : string -> option JS.json;      (* [None]: [JSON.parse] throws *)
  provider_initialize : option (Outcome unit);  (* [None]: the provider has none *)
  redis_xgroup : Outcome unit;
  redis_xreadgroup : Outcome ReadReply;
  provider_flush : Outcome (option FlushResult);  (* [Resolves None]: void *)
  redis_xack : Outcome unit;
  during_flush : list Round;                 (* while [provider.flush] is awaited *)
  during_xack : list Round;                  (* while [xack] is awaited *)
}.

(** *** [parseEvent] *)

(** The four variables of the scan. *)
Record Scan := {
  scan_scope : option string;
  scan_delta : option string;
  scan_timestamp : option string;
  scan_metadata : option string;
}.

Definition no_fields : Scan :=
  {| scan_scope := None; scan_delta := None; scan_timestamp := None; scan_metadata := None |}.

(** The [switch (fields[i])] with [v] for [fields[i + 1]]. *)
Definition assign (key : string) (v : option string) (s : Scan) : Scan :=
  if decide (key = "scope"%string) then
    {| scan_scope := v; scan_delta := scan_delta s;
       scan_timestamp := scan_timestamp s; scan_metadata := scan_metadata s |}
  else if decide (key = "delta"%string) then
    {| scan_scope := scan_scope s; scan_delta := v;
       scan_timestamp := scan_timestamp s; scan_metadata := scan_metadata s |}
  else if decide (key = "timestamp"%string) then
    {| scan_scope := scan_scope s; scan_delta := scan_delta s;
       scan_timestamp := v; scan_metadata := scan_metadata s |}
  else if decide (key = "metadata"%string) then
    {| scan_scope := scan_scope s; scan_delta := scan_delta s;
       scan_timestamp := scan_timestamp s; scan_metadata := v |}
  else s.

(** [for (let i = 0; i < fields.length; i += 2)]: past the end
    [fields[i + 1]] is [undefined]. *)
Fixpoint scan (fields : list string) (s : Scan) : Scan :=
  match fields with
  | [] => s
  | [key] => assign key None s
  | key :: v :: rest => scan rest (assign key (Some v) s)
  end.

(** A string is truthy when it is not empty. *)
Definition truthy (s : option string) : bool :=
  match s with
  | Some EmptyString | None => false
  | Some _ => true
  end.

Definition parseEvent (clock : Z) (parse : string -> option JS.json)
    (fields : list string) : M (option CounterEvent) :=
  let s := scan fields no_fields in
  match scan_scope s, scan_delta s with
  | Some (String _ _ as scope), Some delta =>
      let* parsedMetadata :=
        match scan_metadata s with
        | Some (String _ _ as metadata) =>
            match parse metadata with
            | Some v => ret (Some v)
            | None =>
                emit (Warn "Failed to parse event metadata" (Scope scope)) >>
                ret None
            end
        | _ => ret None
        end in
      ret (Some {| scope := scope;
                   delta := JS.Number delta;
                   timestamp := Some (match scan_timestamp s with
                                      | Some t => JS.Number t
                                      | None => JS.Int clock
                                      end);
                   metadata := parsedMetadata |})
  | _, _ =>
      emit (Warn "Dropped malformed event" (Fields fields)) >>
      ret None
  end.

(** *** Folding what a read returned *)

(** The body of [for (const [id, fields] of messages)]. *)
Definition fold_message (clock : Z) (parse : string -> option JS.json)
    (msg : string * list string) : M unit :=
  let* event := parseEvent clock parse msg.2 in
  match event with
  | Some event =>
      aggregator_add event >>
      modify (fun b => with_pendingIds (pendingIds b ++ [msg.1]) b) >>
      modify_stats incr_eventsProcessed
  | None => ret tt
  end.

Definition fold_results (clock : Z) (parse : string -> option JS.json)
    (results : list (string * list (string * list string))) : M unit :=
  for_each results (fun stream =>
    for_each stream.2 (fold_message clock parse)).

(** What the [catch] of the read loop and of the recovery does. *)
Definition count_error (err : Error) : M unit :=
  modify_stats incr_errorCount >>
  emit (Failure err).

(** The head of [while (this.running)]: the next blocking read is issued. *)
Definition readLoop_head : M unit :=
  let* r := get running in
  let* w := get windowMs in
  when r (record (XReadGroup ">" (Some w))).

(** The read loop resumed while a flush is in flight: it folds what its
    read returned; when the size limit is hit its [flush()] finds
    [this.flushing] set and only waits, otherwise the loop goes on. *)
Definition resume_read (parse : string -> option JS.json) (r : Round) : M unit :=
  match round_read r with
  | Resolves None => readLoop_head
  | Resolves (Some results) =>
      fold_results (round_now r) parse results >>
      let* n := get (fun b => Aggregator.size (aggregator b)) in
      let* limit := get maxBatchSize in
      if (limit <=? n)%nat then ret tt else readLoop_head
  | Rejects err => count_error err >> readLoop_head
  end.

(** [await call]: the call is made, other control flows run until it
    ends, then the value is returned or the error thrown. *)
Definition await {A} (call : Effect) (meanwhile : list Round)
    (parse : string -> option JS.json) (end_ : Outcome A) : M A :=
  record call >>
  for_each meanwhile (resume_read parse) >>
  match end_ with
  | Resolves a => ret a
  | Rejects err => throw err
  end.

(** *** [doFlush] and [flush] *)

(** The event a failed or unflushed entry is re-added as:
    [{ scope, delta, timestamp: Date.now() }]. *)
Definition synthetic (clock : Z) (entry : string * JS.number) : CounterEvent :=
  {| scope := entry.1; delta := entry.2;
     timestamp := Some (JS.Int clock); metadata := None |}.

(** [for (const [scope, delta] of entries) this.aggregator.add(...)] *)
Definition re_add (clock : Z) (entries : gmap string JS.number) : M unit :=
  for_each (map_to_list entries) (fun entry => aggregator_add (synthetic clock entry)).

(** The three statistics a completed flush updates. *)
Definition completed_flush (clock : Z) (batchSize : nat) (s : SyncStats) : SyncStats :=
  let n := S (flushCount s) in
  {| eventsProcessed := eventsProcessed s;
     flushCount := n;
     lastFlushAt := Some clock;
     pendingMessages := pendingMessages s;
     avgBatchSize := JS.Math_round_div (avgBatchSize s * (n - 1) + batchSize) n;
     errorCount := errorCount s |}.

(** [this.aggregator.drain()] *)
Definition aggregator_drain : M (gmap string JS.number) :=
  fun b =>
    let '(batch, a) := Aggregator.drain (aggregator b) in
    Returned batch (with_aggregator a b).

(** [this.pendingIds.splice(0)] *)
Definition splice_pendingIds : M (list string) :=
  fun b => Returned (pendingIds b) (with_pendingIds [] b).

Definition doFlush (env : Env) : M unit :=
  let* batch := aggregator_drain in
  let* idsToAck := splice_pendingIds in
  try_catch
    (let* result :=
       await (ProviderFlush batch) (during_flush env) (JSON_parse env)
             (provider_flush env) in
     match result with
     | Some {| failed := Some failed |} =>
         when (0 <? size failed)%nat
           (re_add (now env) failed >>
            emit (Warn "Partial flush failure" (Scopes (size failed) (size batch))))
     | _ => ret tt
     end >>
     when (0 <? length idsToAck)%nat
       (await (XAck idsToAck) (during_xack env) (JSON_parse env) (redis_xack env)) >>
     modify_stats (completed_flush (now env) (size batch)) >>
     let* n := get (fun b => flushCount (stats b)) in
     emit (Flush (size batch) n))
    (fun err =>
       count_error err >>
       re_add (now env) batch >>
       modify (fun b => with_pendingIds (idsToAck ++ pendingIds b) b)).

(** The mutex: a caller that finds a flush in flight waits for it and
    returns; the wait itself changes nothing.  [this.flushing] is set
    here before [doFlush] runs rather than after its first suspension,
    which no code can tell apart. *)
Definition flush (env : Env) : M unit :=
  let* busy := get flushing in
  if busy then ret tt
  else
    let* n := get (fun b => Aggregator.size (aggregator b)) in
    if (n =? 0)%nat then ret tt
    else
      modify (with_flushing true) >>
      try_finally (doFlush env) (with_flushing false).

(** *** Recovery, the read loop and the timer *)

(** No other control flow exists yet while the recovery read is awaited. *)
Definition recoverPending (env : Env) : M unit :=
  try_catch
    (let* results :=
       await (XReadGroup "0" None) [] (JSON_parse env) (redis_xreadgroup env) in
     match results with
     | None => ret tt
     | Some results =>
         fold_results (now env) (JSON_parse env) results >>
         let* n := get (fun b => Aggregator.size (aggregator b)) in
         when (0 <? n)%nat (emit (Recovery n) >> flush env)
     end)
    count_error.

(** One pass of the read loop, from the end of its pending read to the
    next read; the back-off [sleep(1000)] of the [catch] is not timed. *)
Definition readLoop_pass (env : Env) : M unit :=
  try_catch
    (let* results :=
       match redis_xreadgroup env with
       | Resolves r => ret r
       | Rejects err => throw err
       end in
     match results with
     | None => ret tt
     | Some results =>
         fold_results (now env) (JSON_parse env) results >>
         let* n := get (fun b => Aggregator.size (aggregator b)) in
         let* limit := get maxBatchSize in
         when (limit <=? n)%nat (flush env)
     end)
    count_error >>
  readLoop_head.

Definition scheduleFlush : M unit :=
  let* r := get running in
  if negb r then ret tt
  else
    let* w := get windowMs in
    record (SetTimeout w) >>
    modify (with_flushTimer true).

(** The callback of the flush timer. *)
Definition flushTimer_fires (env : Env) : M unit :=
  let* n := get (fun b => Aggregator.size (aggregator b)) in
  when (0 <? n)%nat (flush env) >>
  scheduleFlush.

(** *** [start] *)

(** [!err.message?.includes('BUSYGROUP')] *)
Definition not_busygroup (err : Error) : bool :=
  match message err with
  | Some m => negb (JS.includes "BUSYGROUP" m)
  | None => true
  end.

Definition start (env : Env) : M unit :=
  let* r := get running in
  if r then ret tt
  else
    match provider_initialize env with
    | Some end_ => await ProviderInitialize [] (JSON_parse env) end_
    | None => ret tt
    end >>
    let* key := get streamKey in
    let* group := get groupName in
    try_catch
      (await (XGroupCreate key group) [] (JSON_parse env) (redis_xgroup env))
      (fun err => if not_busygroup err then throw err else ret tt) >>
    modify (with_running true) >>
    emit Started >>
    recoverPending env >>
    readLoop_head >>
    scheduleFlush.


(** *** [get] and [getBatch]: the reads of the provider *)

(** The answers of the provider to reads: [get] per scope, and [getBatch]
    when the provider has one. *)
Record Reads := {
  provider_get : string -> Outcome JS.number;
  provider_getBatch : option (list string -> Outcome (gmap string JS.number));
}.

Definition get_scope (reads : Reads) (scope : string) : Outcome JS.number :=
  provider_get reads scope.

(** [Promise.all(scopes.map(async scope => [scope, await get(scope)]))]:
    the entries in the order of the scopes, or a rejection (the model
    takes the first in the order of the scopes). *)
Fixpoint get_all (reads : Reads) (scopes : list string)
    : Outcome (list (string * JS.number)) :=
  match scopes with
  | [] => Resolves []
  | scope :: rest =>
      match provider_get reads scope, get_all reads rest with
      | Rejects err, _ => Rejects err
      | Resolves _, Rejects err => Rejects err
      | Resolves v, Resolves entries => Resolves ((scope, v) :: entries)
      end
  end.

(** [new Map(entries)]: the entries are set in order. *)
Definition Map_of (entries : list (string * JS.number)) : gmap string JS.number :=
  fold_left (fun m entry => <[entry.1 := entry.2]> m) entries ∅.

Definition getBatch (reads : Reads) (scopes : list string)
    : Outcome (gmap string JS.number) :=
  match provider_getBatch reads with
  | Some batch_read => batch_read scopes
  | None =>
      match get_all reads scopes with
      | Resolves entries => Resolves (Map_of entries)
      | Rejects err => Rejects err
      end
  end.

(** *** [stop] *)

(** The answers [stop] gets: the provider's [close] when it has one, and
    [redis.quit]; and what the read loop still completes meanwhile. *)
Record Shutdown := {
  provider_close : option (Outcome unit);
  redis_quit : Outcome unit;
  during_close : list Round;
  during_quit : list Round;
}.

(** [stop] up to its wait for a flush in flight. *)
Definition stop_begin : M unit :=
  modify (with_running false) >>
  let* timer := get flushTimer in
  when timer (record ClearTimeout >> modify (with_flushTimer false)).

(** [stop] from the end of that wait: the final flush, [close], [quit]
    and the [stopped] event. *)
Definition stop_finish (env : Env) (sd : Shutdown) : M unit :=
  flush env >>
  match provider_close sd with
  | Some end_ => await ProviderClose (during_close sd) (JSON_parse env) end_
  | None => ret tt
  end >>
  await RedisQuit (during_quit sd) (JSON_parse env) (redis_quit sd) >>
  emit Stopped.

(** [stop] when no flush is in flight. *)
Definition stop (env : Env) (sd : Shutdown) : M unit :=
  stop_begin >> stop_finish env sd.

End CounterBridge.

(* ================================================================== *)
(** ** [MongoProvider] ([packages/provider-mongo/src/provider.ts]) *)
(* ================================================================== *)

Module MongoProvider.

(** What [bulkWrite] throws: [err.result] when present, with what its
    [getWriteErrors()] gives when it has one, and [err.writeErrors];
    a write error is the index of its operation. *)
Record BulkError := {
  error : Error;
  result : option (option (list nat));
  writeErrors : option (list nat);
}.

(** One [updateOne] upsert: [$inc] of [value] by [delta] on [scope]. *)
Record UpdateOne := {
  filter_scope : string;
  inc_value : JS.number;
}.

(** How [flush] ends, and the [bulkWrite] calls it made.  The index of a
    write error is the position of its operation; an index past the
    operations (for which the source would set an [undefined] key) adds
    nothing here. *)
Inductive Completion :=
| Void
| Partial (r : FlushResult)
| Rethrown (err : BulkError).

Definition flush (bulkWrite : list UpdateOne -> option BulkError)
    (batch : gmap string JS.number) : Completion * list (list UpdateOne) :=
  if (size batch =? 0)%nat then (Void, [])
  else
    let scopes := (map_to_list batch).*1 in
    let ops := map (fun entry => {| filter_scope := entry.1; inc_value := entry.2 |})
                   (map_to_list batch) in
    match bulkWrite ops with
    | None => (Void, [ops])
    | Some err =>
        let partial :=
          if decide (name (error err) = "MongoBulkWriteError"%string) then
            match result err with
            | Some getWriteErrors =>
                let writeErrors :=
                  match getWriteErrors with
                  | Some es => es
                  | None => default [] (writeErrors err)
                  end in
                if ((0 <? length writeErrors) && (length writeErrors <? length ops))%nat
                then
                  Some (fold_left
                          (fun failed idx =>
                             match scopes !! idx with
                             | Some scope =>
                                 match batch !! scope with
                                 | Some d => <[scope := d]> failed
                                 | None => failed
                                 end
                             | None => failed
                             end)
                          writeErrors (∅ : gmap string JS.number))
                else None
            | None => None
            end
          else None in
        match partial with
        | Some failed => (Partial {| failed := Some failed |}, [ops])
        | None => (Rethrown err, [ops])
        end
    end.

(** [get]: the value of the document of the scope, 0 without document. *)
Definition get (findOne : string -> option JS.number) (scope : string) : JS.number :=
  default (JS.Int 0) (findOne scope).

(** [getBatch]: every requested scope starts at 0, then each document
    found sets the entry of its own scope. *)
Definition getBatch (find : list string -> list (string * JS.number))
    (scopes : list string) : gmap string JS.number :=
  let zeros := fold_left (fun m scope => <[scope := JS.Int 0]> m) scopes ∅ in
  fold_left (fun m doc => <[doc.1 := doc.2]> m) (find scopes) zeros.

End MongoProvider.

(* ================================================================== *)
(** ** [CounterClient] ([packages/sdk/src/client.ts]) *)
(* ================================================================== *)

Module CounterClient.

Definition DEFAULT_STREAM_KEY : string := "counter-bridge:events".
Definition DEFAULT_MAX_LEN : Z := 100000.

(** [CounterClientConfig]: [redis] is a URL ([inl]) or a connection that
    the caller owns ([inr]). *)
Record CounterClientConfig := {
  redis : string + unit;
  config_streamKey : option string;
  config_maxStreamLength : option Z;
}.

Record t := {
  streamKey : string;
  maxStreamLength : Z;
  ownsConnection : bool;
}.

(** The constructor. *)
Definition new (config : CounterClientConfig) : t :=
  {| streamKey := default DEFAULT_STREAM_KEY (config_streamKey config);
     maxStreamLength := default DEFAULT_MAX_LEN (config_maxStreamLength config);
     ownsConnection := match redis config with inl _ => true | inr _ => false end |}.

(** The [fields] array of [add]; [stringify] is [JSON.stringify]. *)
Definition fields (stringify : JS.json -> string) (clock : Z) (scope : string)
    (delta : JS.number) (metadata : option JS.json) : list string :=
  ["scope"; scope; "delta"; JS.String delta; "timestamp"; JS.String (JS.Int clock)]%string
  ++ match metadata with
     | Some m => ["metadata"%string; stringify m]
     | None => []
     end.

(** [add]: the arguments of its one [xadd] call. *)
Definition add (c : t) (stringify : JS.json -> string) (clock : Z) (scope : string)
    (delta : JS.number) (metadata : option JS.json) : list string :=
  if (0 <? maxStreamLength c) then
    [streamKey c; "MAXLEN"; "~"; JS.String (JS.Int (maxStreamLength c)); "*"]%string
    ++ fields stringify clock scope delta metadata
  else
    [streamKey c; "*"]%string ++ fields stringify clock scope delta metadata.

Definition inc (c : t) (stringify : JS.json -> string) (clock : Z) (scope : string)
    (metadata : option JS.json) : list string :=
  add c stringify clock scope (JS.Int 1) metadata.

Definition dec (c : t) (stringify : JS.json -> string) (clock : Z) (scope : string)
    (metadata : option JS.json) : list string :=
  add c stringify clock scope (JS.Int (-1)) metadata.

(** [close]: whether [redis.quit()] is called. *)
Definition close (c : t) : bool := ownsConnection c.

End CounterClient.

(* ================================================================== *)
(** ** The client singleton ([packages/provider-mongo/src/setup.ts]) *)
(* ================================================================== *)

Module Setup.

Record CounterBridgeSetupConfig := {
  redisUrl : string;
  streamKey : option string;
  maxStreamLength : option Z;
}.

(** The module variable [client]. *)
Definition State : Type := option CounterClient.t.

(** A call returns a value or throws, and leaves a state. *)
Inductive Completion (A : Type) :=
| Returned (a : A) (st : State)
| Thrown (err : Error) (st : State).
Arguments Returned {A} a st.
Arguments Thrown {A} err st.

Definition setup (config : CounterBridgeSetupConfig) (st : State) : Completion unit :=
  match st with
  | Some _ =>
      Thrown {| name := "Error";
                message := Some "counterBridge.setup() has already been called. Call shutdown() first to reconfigure." |}
             st
  | None =>
      Returned tt
        (Some (CounterClient.new
                 {| CounterClient.redis := inl (redisUrl config);
                    CounterClient.config_streamKey := streamKey config;
                    CounterClient.config_maxStreamLength := maxStreamLength config |}))
  end.

Definition getClient (st : State) : Completion CounterClient.t :=
  match st with
  | Some client => Returned client st
  | None =>
      Thrown {| name := "Error";
                message := Some "Call counterBridge.setup() before using counter write methods." |}
             st
  end.

(** [shutdown]: [quit] is the end of the [redis.quit()] that [close]
    awaits when the client owns its connection. *)
Definition shutdown (quit : Outcome unit) (st : State) : Completion unit :=
  match st with
  | Some client =>
      if CounterClient.close client then
        match quit with
        | Resolves _ => Returned tt None
        | Rejects err => Thrown err st
        end
      else Returned tt None
  | None => Returned tt st
  end.

End Setup.

(* ================================================================== *)
(** ** [counterPlugin] ([packages/provider-mongo/src/plugin.ts]) *)
(* ================================================================== *)

Module Plugin.

(** What the plugin reads of a document: the model name of its
    constructor, when it has one, and its id as text. *)
Record Document := {
  modelName : option string;
  _id : string;
}.

Record CounterPluginOptions := {
  fields : list string;
  scopePrefix : option string;
}.

(** [Array.prototype.join]. *)
Fixpoint join (sep : string) (xs : list string) : string :=
  match xs with
  | [] => EmptyString
  | [x] => x
  | x :: rest => x ++ sep ++ join sep rest
  end.

(** [String.prototype.toLowerCase] on the ASCII letters. *)
Definition lower_char (c : ascii) : ascii :=
  let n := nat_of_ascii c in
  if ((65 <=? n) && (n <=? 90))%nat then ascii_of_nat (n + 32) else c.

Fixpoint toLowerCase (s : string) : string :=
  match s with
  | EmptyString => EmptyString
  | String c s' => String (lower_char c) (toLowerCase s')
  end.

Definition prefix_of (options : CounterPluginOptions) (doc : Document) : string :=
  match scopePrefix options with
  | Some p => p
  | None =>
      match modelName doc with
      | Some m => toLowerCase m
      | None => "unknown"
      end
  end.

(** The quotation mark of the error message. *)
Definition double_quote : string := String (ascii_of_nat 34) EmptyString.

(** [counterScope]: the scope of a declared field, an error for another. *)
Definition counterScope (options : CounterPluginOptions) (doc : Document)
    (field : string) : Error + string :=
  if bool_decide (field ∈ fields options) then
    inr ("v1:" ++ prefix_of options doc ++ ":" ++ _id doc ++ ":" ++ field)%string
  else
    inl {| name := "Error";
           message := Some ("Unknown counter field " ++ double_quote ++ field
                            ++ double_quote ++ ". Declared fields: ["
                            ++ join ", " (fields options) ++ "]")%string |}.

(** The methods [add], [inc] and [dec] of a document: [getClient()],
    then [counterScope(field)], then the call of the client, of which the
    arguments of its [xadd] are given. *)
Definition add (options : CounterPluginOptions) (doc : Document) (st : Setup.State)
    (stringify : JS.json -> string) (clock : Z) (field : string)
    (delta : JS.number) (metadata : option JS.json) : Error + list string :=
  match Setup.getClient st with
  | Setup.Thrown err _ => inl err
  | Setup.Returned client _ =>
      match counterScope options doc field with
      | inl err => inl err
      | inr sc => inr (CounterClient.add client stringify clock sc delta metadata)
      end
  end.

Definition inc (options : CounterPluginOptions) (doc : Document) (st : Setup.State)
    (stringify : JS.json -> string) (clock : Z) (field : string)
    (metadata : option JS.json) : Error + list string :=
  match Setup.getClient st with
  | Setup.Thrown err _ => inl err
  | Setup.Returned client _ =>
      match counterScope options doc field with
      | inl err => inl err
      | inr sc => inr (CounterClient.inc client stringify clock sc metadata)
      end
  end.

Definition dec (options : CounterPluginOptions) (doc : Document) (st : Setup.State)
    (stringify : JS.json -> string) (clock : Z) (field : string)
    (metadata : option JS.json) : Error + list string :=
  match Setup.getClient st with
  | Setup.Thrown err _ => inl err
  | Setup.Returned client _ =>
      match counterScope options doc field with
      | inl err => inl err
      | inr sc => inr (CounterClient.dec client stringify clock sc metadata)
      end
  end.

(** [fields.map(f => doc.counterScope(f))]: the first error thrown ends
    the loop. *)
Fixpoint scopes_of (options : CounterPluginOptions) (doc : Document)
    (fs : list string) : Error + list string :=
  match fs with
  | [] => inr []
  | f :: rest =>
      match counterScope options doc f with
      | inl err => inl err
      | inr sc =>
          match scopes_of options doc rest with
          | inl err => inl err
          | inr scs => inr (sc :: scs)
          end
      end
  end.

(** [for (const field of fs) result[field] = values.get(counterScope(field)) ?? 0] *)
Fixpoint counters_of (options : CounterPluginOptions) (doc : Document)
    (values : gmap string JS.number) (fs : list string)
    (result : gmap string JS.number) : Error + gmap string JS.number :=
  match fs with
  | [] => inr result
  | f :: rest =>
      match counterScope options doc f with
      | inl err => inl err
      | inr sc =>
          counters_of options doc values rest
            (<[f := default (JS.Int 0) (values !! sc)]> result)
      end
  end.

(** [getCounters], with the reads of the provider it uses. *)
Definition getCounters (options : CounterPluginOptions) (doc : Document)
    (reads : CounterBridge.Reads) : Outcome (gmap string JS.number) :=
  match scopes_of options doc (fields options) with
  | inl err => Rejects err
  | inr scopes =>
      match CounterBridge.getBatch reads scopes with
      | Rejects err => Rejects err
      | Resolves values =>
          match counters_of options doc values (fields options) ∅ with
          | inl err => Rejects err
          | inr result => Resolves result
          end
      end
  end.

(** The scopes of all documents, document by document. *)
Fixpoint all_scopes (options : CounterPluginOptions) (docs : list Document)
    (fs : list string) : Error + list string :=
  match docs with
  | [] => inr []
  | doc :: rest =>
      match scopes_of options doc fs with
      | inl err => inl err
      | inr scs =>
          match all_scopes options rest fs with
          | inl err => inl err
          | inr more => inr (scs ++ more)
          end
      end
  end.

(** [docs.map(doc => ({ ...doc.toObject(), counters }))], the document
    standing for its own members. *)
Fixpoint hydrate (options : CounterPluginOptions) (values : gmap string JS.number)
    (fs : list string) (docs : list Document)
    : Error + list (Document * gmap string JS.number) :=
  match docs with
  | [] => inr []
  | doc :: rest =>
      match counters_of options doc values fs ∅ with
      | inl err => inl err
      | inr counters =>
          match hydrate options values fs rest with
          | inl err => inl err
          | inr more => inr ((doc, counters) :: more)
          end
      end
  end.

(** The static [withCounters]. *)
Definition withCounters (options : CounterPluginOptions) (docs : list Document)
    (counterFields : option (list string)) (reads : CounterBridge.Reads)
    : Outcome (list (Document * gmap string JS.number)) :=
  match docs with
  | [] => Resolves []
  | _ =>
      let fieldsToFetch := default (fields options) counterFields in
      match all_scopes options docs fieldsToFetch with
      | inl err => Rejects err
      | inr allScopes =>
          match CounterBridge.getBatch reads allScopes with
          | Rejects err => Rejects err
          | Resolves values =>
              match hydrate options values fieldsToFetch docs with
              | inl err => Rejects err
              | inr result => Resolves result
              end
          end
      end
  end.

End Plugin.

(* ================================================================== *)
(** ** [Logger] ([packages/consumer/src/logger.ts]) *)
(* ================================================================== *)

Module Logger.

Inductive LogLevel := debug | info | warn | error.

Definition LEVELS (l : LogLevel) : nat :=
  match l with
  | debug => 0
  | info => 1
  | warn => 2
  | error => 3
  end.

Definition level_name (l : LogLevel) : string :=
  match l with
  | debug => "debug"
  | info => "info"
  | warn => "warn"
  | error => "error"
  end.

Record t := { level : nat }.

(** The constructor; without argument the level is ['info']. *)
Definition new (l : option LogLevel) : t :=
  {| level := LEVELS (default info l) |}.

(** [log]: nothing below the level of the logger; otherwise the entry
    written, the members of [data] overriding the three standard ones. *)
Definition log (lg : t) (iso_now : string) (l : LogLevel) (msg : string)
    (data : gmap string JS.json) : option (gmap string JS.json) :=
  if (LEVELS l <? level lg)%nat then None
  else
    Some (data ∪ {[ "timestamp"%string := JS.JString iso_now;
                    "level"%string := JS.JString (level_name l);
                    "msg"%string := JS.JString msg ]}).

End Logger.

(* ================================================================== *)
(** ** Vocabulary of the properties *)
(* ================================================================== *)



Import CounterBridge.
Local Open Scope bridge_scope.

(** The ids acknowledged to the log: the arguments of the [xack] calls. *)
Definition acknowledged (t : list CounterBridge.Effect) : list string :=
  flat_map (fun e => match e with CounterBridge.XAck ids => ids | _ => [] end) t.

(** The batches handed to [provider.flush]. *)
Definition flushed (t : list CounterBridge.Effect) : list (gmap string JS.number) :=
  flat_map (fun e => match e with CounterBridge.ProviderFlush b => [b] | _ => [] end) t.

(** The events emitted. *)
Definition emitted (t : list CounterBridge.Effect) : list CounterBridge.Emitted :=
  flat_map (fun e => match e with CounterBridge.Emit x => [x] | _ => [] end) t.

Definition state_of {A} (r : CounterBridge.Result A) : CounterBridge.Bridge :=
  match r with
  | CounterBridge.Returned _ b | CounterBridge.Thrown _ b => b
  end.

(** The state when a suspended call ends, the read loop having run
    [rounds] in between. *)
Definition resumed (rounds : list CounterBridge.Round)
    (parse : string -> option JS.json) (b : CounterBridge.Bridge) : CounterBridge.Bridge :=
  state_of (CounterBridge.for_each rounds (CounterBridge.resume_read parse) b).

(** The state [doFlush] leaves when it suspends on [provider.flush]: the
    aggregator drained, the pending ids taken, the call made. *)
Definition snapshot (b : CounterBridge.Bridge) : CounterBridge.Bridge :=
  CounterBridge.with_trace
    (CounterBridge.trace b
       ++ [CounterBridge.ProviderFlush (Aggregator.deltas (CounterBridge.aggregator b))])
    (CounterBridge.with_pendingIds []
       (CounterBridge.with_aggregator Aggregator.new b)).

(** What only the read loop does to the state: it folds events, appends
    their ids, counts errors, emits warnings and errors and issues reads;
    it never acknowledges, never calls the provider and leaves the flush
    statistics alone. *)
Definition read_effect (e : CounterBridge.Effect) : Prop :=
  match e with
  | CounterBridge.Emit (CounterBridge.Warn m (CounterBridge.Fields _)) => True
  | CounterBridge.Emit (CounterBridge.Warn m (CounterBridge.Scope _)) => True
  | CounterBridge.Emit (CounterBridge.Failure _) => True
  | CounterBridge.XReadGroup _ _ => True
  | _ => False
  end.

Record read_activity (b b' : CounterBridge.Bridge) : Prop := {
  ra_aggregator :
    exists events, CounterBridge.aggregator b'
                   = Aggregator.add_all events (CounterBridge.aggregator b);
  ra_pendingIds :
    exists ids, CounterBridge.pendingIds b' = CounterBridge.pendingIds b ++ ids;
  ra_trace :
    exists t, CounterBridge.trace b' = CounterBridge.trace b ++ t /\ Forall read_effect t;
  ra_flushCount :
    flushCount (CounterBridge.stats b') = flushCount (CounterBridge.stats b);
  ra_avgBatchSize :
    avgBatchSize (CounterBridge.stats b') = avgBatchSize (CounterBridge.stats b);
  ra_lastFlushAt :
    lastFlushAt (CounterBridge.stats b') = lastFlushAt (CounterBridge.stats b);
  ra_errorCount :
    (errorCount (CounterBridge.stats b) <= errorCount (CounterBridge.stats b'))%nat;
  ra_running : CounterBridge.running b' = CounterBridge.running b;
  ra_flushing : CounterBridge.flushing b' = CounterBridge.flushing b;
  ra_flushTimer : CounterBridge.flushTimer b' = CounterBridge.flushTimer b;
  ra_windowMs : CounterBridge.windowMs b' = CounterBridge.windowMs b;
  ra_maxBatchSize : CounterBridge.maxBatchSize b' = CounterBridge.maxBatchSize b;
}.

(** The [catch] of [doFlush], run from the state [mid] of the resumption. *)
Definition caught (env : Env) (batch : gmap string JS.number)
    (idsToAck : list string) (err : Error) (mid : Bridge) : Bridge :=
  let counted :=
    with_trace (trace mid ++ [Emit (Failure err)])
      (with_stats (incr_errorCount (stats mid)) mid) in
  with_pendingIds (idsToAck ++ pendingIds mid)
    (with_aggregator
       (Aggregator.add_all (synthetic (now env) <$> map_to_list batch)
          (aggregator mid))
       counted).

(** The scopes a provider answer reports as failed. *)
Definition reported (result : option FlushResult) : gmap string JS.number :=
  match result with
  | Some {| failed := Some failed |} => failed
  | _ => ∅
  end.

(** The state once the answer of the provider is handled: when some scope
    failed, the failed entries are re-added and the warning is emitted. *)
Definition requeued (env : Env) (batch failed : gmap string JS.number)
    (mid : Bridge) : Bridge :=
  if (0 <? size failed)%nat then
    with_trace
      (trace mid ++ [Emit (Warn "Partial flush failure"
                             (Scopes (size failed) (size batch)))])
      (with_aggregator
         (Aggregator.add_all (synthetic (now env) <$> map_to_list failed)
            (aggregator mid))
         mid)
  else mid.

(** The state when the acknowledgement, if there is an id to acknowledge,
    has been sent and answered. *)
Definition acked (env : Env) (idsToAck : list string) (b : Bridge) : Bridge :=
  if (0 <? length idsToAck)%nat then
    resumed (during_xack env) (JSON_parse env)
      (with_trace (trace b ++ [XAck idsToAck]) b)
  else b.

(** The end of the [try] block: statistics and the [flush] event. *)
Definition accounted (env : Env) (batch : gmap string JS.number) (b : Bridge) : Bridge :=
  let b' := with_stats (completed_flush (now env) (size batch) (stats b)) b in
  with_trace (trace b' ++ [Emit (Flush (size batch) (flushCount (stats b')))]) b'.

(** The value a key has in a flat field list: that of its last occurrence
    at an even position, and none when that occurrence ends the list. *)
Fixpoint last_value (key : string) (fields : list string) (found : option string)
    : option string :=
  match fields with
  | [] => found
  | [k] => if decide (k = key) then None else found
  | k :: v :: rest => last_value key rest (if decide (k = key) then Some v else found)
  end.

Definition field (key : string) (fields : list string) : option string :=
  last_value key fields None.

(** The warning of a dropped event, with the raw fields. *)
Definition dropped (fields : list string) : Effect :=
  Emit (Warn "Dropped malformed event" (Fields fields)).

(** What a flush leaves alone: the flags and settings of the bridge; and
    it only appends to the trace. *)
Definition same_settings (b b' : Bridge) : Prop :=
  running b' = running b
  /\ flushing b' = flushing b
  /\ flushTimer b' = flushTimer b
  /\ windowMs b' = windowMs b
  /\ maxBatchSize b' = maxBatchSize b
  /\ exists t, trace b' = trace b ++ t.

(** The call of [initialize], when the provider has one. *)
Definition init_effects (env : Env) : list Effect :=
  match provider_initialize env with
  | Some _ => [ProviderInitialize]
  | None => []
  end.

(** The state in which [start] enters the recovery: the provider
    initialised, the group ensured, the bridge marked running and
    [started] emitted. *)
Definition started_state (env : Env) (b : Bridge) : Bridge :=
  with_trace
    (trace b ++ init_effects env
       ++ [XGroupCreate (streamKey b) (groupName b); Emit Started])
    (with_running true b).

(** What one scope sees of a sequence of additions. *)
Definition fold_scope (s : string) (events : list CounterEvent)
    (v : option JS.number) : option JS.number :=
  fold_left (fun acc e =>
               if decide (scope e = s)
               then Some (JS.plus (default (JS.Int 0) acc) (delta e))
               else acc) events v.

(** A program of the read loop: it returns, and what it did is read
    activity. *)
Definition steady {A} (m : M A) : Prop :=
  forall b, exists a b', m b = Returned a b' /\ read_activity b b'.

(** *** The scenarios of the tests *)

Definition no_json : string -> option JS.json := fun _ => None.

Definition error (message : string) : Error :=
  {| name := "Error"; message := Some message |}.

(** A bridge as the tests configure it. *)
Definition test_bridge : Bridge := CounterBridge.new "test:stream" "test-group" 500 1000.

(** A world at clock 1000 in which nothing else runs during a flush. *)
Definition world (initialize : option (Outcome unit)) (xgroup : Outcome unit)
    (read : Outcome ReadReply) (flush : Outcome (option FlushResult))
    (xack : Outcome unit) : Env :=
  {| now := 1000; JSON_parse := no_json;
     provider_initialize := initialize; redis_xgroup := xgroup;
     redis_xreadgroup := read; provider_flush := flush; redis_xack := xack;
     during_flush := []; during_xack := [] |}.

(** One pending entry [1-0] with [scope = x], [delta = 3]. *)
Definition one_pending : ReadReply :=
  Some [("test:stream",
         [("1-0", ["scope"; "x"; "delta"; "3"; "timestamp"; "1000"])])]%string.

(** Two entries, for the scopes [a] and [b]. *)
Definition two_entries : list (string * list (string * list string)) :=
  [("test:stream",
    [("4-0", ["scope"; "a"; "delta"; "1"; "timestamp"; "1000"]);
     ("5-0", ["scope"; "b"; "delta"; "2"; "timestamp"; "1000"])])]%string.

(** The bridge once the two entries are folded. *)
Definition folded_a_b : Bridge :=
  state_of (fold_results 1000 no_json two_entries test_bridge).

Definition batch_a_b : gmap string JS.number :=
  {[ "a"%string := JS.Int 1; "b"%string := JS.Int 2 ]}.





Definition initialize_fails : Env :=
  world (Some (Rejects (error "no index"))) (Resolves tt) (Resolves None)
    (Resolves None) (Resolves tt).

(** The start of the recovery test: one pending entry, a healthy world. *)
Definition recovery_world : Env :=
  world (Some (Resolves tt)) (Resolves tt) (Resolves one_pending)
    (Resolves None) (Resolves tt).

Definition event (s : string) (z : Z) : CounterEvent :=
  {| scope := s; delta := JS.Int z; metadata := None; timestamp := None |}.

(** *** Vocabulary of the further properties *)

(** The aggregator holds no scope exactly when it has counted no event. *)
Definition consistent (a : Aggregator.t) : Prop :=
  Aggregator.size a = 0%nat <-> Aggregator.deltas a = ∅.

(** The entries the parser keeps: a non-empty scope and a delta. *)
Definition kept (msg : string * list string) : bool :=
  truthy (field "scope" msg.2) && bool_decide (is_Some (field "delta" msg.2)).

(** The ids of the kept entries of a read, in the order of the read. *)
Definition kept_ids (results : list (string * list (string * list string)))
    : list string :=
  flat_map (fun stream => (filter (fun msg => kept msg = true) stream.2).*1) results.

(** What folding the entries with the ids [ids] does to the bridge. *)
Definition ingested (ids : list string) (b b' : Bridge) : Prop :=
  pendingIds b' = pendingIds b ++ ids
  /\ eventsProcessed (stats b') = (eventsProcessed (stats b) + length ids)%nat
  /\ Aggregator.size (aggregator b')
     = (Aggregator.size (aggregator b) + length ids)%nat
  /\ errorCount (stats b') = errorCount (stats b)
  /\ flushCount (stats b') = flushCount (stats b)
  /\ acknowledged (trace b') = acknowledged (trace b)
  /\ flushed (trace b') = flushed (trace b).

(** A healthy world, and one in which the provider reports [b] failed
    and the acknowledgement then fails. *)
Definition healthy : Env :=
  world None (Resolves tt) (Resolves None) (Resolves None) (Resolves tt).


(** The timers armed, by their delays. *)
Definition armed (t : list Effect) : list nat :=
  flat_map (fun e => match e with SetTimeout ms => [ms] | _ => [] end) t.

(** What a flush, with the read loop running beside it, adds to the
    trace: the calls of [provider.flush] and [xack], the events [flush],
    [warn] and [error], and the reads of the loop. *)
Definition flush_effect (e : Effect) : Prop :=
  match e with
  | Emit (Flush _ _) | Emit (Warn _ _) | Emit (Failure _) => True
  | ProviderFlush _ | XAck _ | XReadGroup _ _ => True
  | _ => False
  end.

Definition grows (b b' : Bridge) : Prop :=
  exists t, trace b' = trace b ++ t /\ Forall flush_effect t.

(** The state [stop] has reached when it turns to the flush in flight:
    the bridge marked as stopped and the timer cleared. *)
Definition halted (b : Bridge) : Bridge :=
  let b0 := with_running false b in
  if flushTimer b
  then with_flushTimer false (with_trace (trace b0 ++ [ClearTimeout]) b0)
  else b0.

(** A shutdown in which [close] and [quit] end as given and the read loop
    is silent. *)
Definition quiet_shutdown (close : option (Outcome unit)) (quit : Outcome unit)
    : Shutdown :=
  {| provider_close := close; redis_quit := quit;
     during_close := []; during_quit := [] |}.

(** The values of the digits of a decimal numeral, first digit first. *)
Fixpoint uint_values (d : Decimal.uint) : list Z :=
  match d with
  | Decimal.Nil => []
  | Decimal.D0 d' => 0 :: uint_values d'
  | Decimal.D1 d' => 1 :: uint_values d'
  | Decimal.D2 d' => 2 :: uint_values d'
  | Decimal.D3 d' => 3 :: uint_values d'
  | Decimal.D4 d' => 4 :: uint_values d'
  | Decimal.D5 d' => 5 :: uint_values d'
  | Decimal.D6 d' => 6 :: uint_values d'
  | Decimal.D7 d' => 7 :: uint_values d'
  | Decimal.D8 d' => 8 :: uint_values d'
  | Decimal.D9 d' => 9 :: uint_values d'
  end.

(** The scope the plugin gives a field of a document. *)
Definition scope_text (options : Plugin.CounterPluginOptions) (doc : Plugin.Document)
    (field : string) : string :=
  ("v1:" ++ Plugin.prefix_of options doc ++ ":" ++ Plugin._id doc ++ ":" ++ field)%string.

(** The counters of the fields [fs] of a document, read from [values]:
    a missing value counts as 0. *)
Definition counters_from (options : Plugin.CounterPluginOptions) (doc : Plugin.Document)
    (values : gmap string JS.number) (fs : list string) (f : string)
    : option JS.number :=
  if bool_decide (f ∈ fs)
  then Some (default (JS.Int 0) (values !! scope_text options doc f))
  else None.





(* ================================================================== *)
(** ** [Number] on sample texts *)
(* ================================================================== *)

Example Number_samples :
  map JS.Number
    ["3"; "-12"; " 7 "; ""; "abc"; "1.5"; "1e3"; "0x10"; "12px"; "-Infinity";
     "2.50"; "."; "1e"; "+5"; "1."; ".5"; "0b101"; "-0x10"; "1e-2"; "infinity";
     "1 2"; "00012"]%string
  = [JS.Int 3; JS.Int (-12); JS.Int 7; JS.Int 0; JS.NaN; JS.Dec 15 1; JS.Int 1000;
     JS.Int 16; JS.NaN; JS.Infinity true;
     JS.Dec 25 1; JS.NaN; JS.NaN; JS.Int 5; JS.Int 1; JS.Dec 5 1; JS.Int 5; JS.NaN;
     JS.Dec 1 2; JS.NaN;
     JS.NaN; JS.Int 12].
Proof. vm_compute. reflexivity. Qed.

(* ================================================================== *)
(** ** The aggregator folds *)
(* ================================================================== *)

Section AggregatorFacts.

Implicit Types (a : Aggregator.t) (e : CounterEvent) (s : string).



Lemma lookup_add e a s :
  Aggregator.deltas (Aggregator.add e a) !! s
  = if decide (scope e = s)
    then Some (JS.plus (default (JS.Int 0) (Aggregator.deltas a !! s)) (delta e))
    else Aggregator.deltas a !! s.
Proof.
  unfold Aggregator.add; simpl. case_decide as Hs.
  - subst s. by rewrite lookup_insert_eq.
  - by rewrite lookup_insert_ne.
Qed.

Lemma lookup_add_all events a s :
  Aggregator.deltas (Aggregator.add_all events a) !! s
  = fold_scope s events (Aggregator.deltas a !! s).
Proof.
  revert a. induction events as [|e events IH]; intros a; [done|].
  unfold Aggregator.add_all, fold_scope in *. simpl.
  by rewrite IH, lookup_add.
Qed.

Lemma count_add_all events a :
  Aggregator.size (Aggregator.add_all events a) = (length events + Aggregator.size a)%nat.
Proof.
  revert a. induction events as [|e events IH]; intros a; [done|].
  unfold Aggregator.add_all in *. simpl. rewrite IH.
  unfold Aggregator.size, Aggregator.add. simpl. lia.
Qed.






(** The first two scenarios of the specification. *)
Example plain_fold :
  let a := Aggregator.add_all [event "likes" 1; event "likes" 1; event "likes" (-1)]
             Aggregator.new in
  Aggregator.size a = 3%nat
  /\ Aggregator.scopeCount a = 1%nat
  /\ (Aggregator.drain a).1 = {[ "likes"%string := JS.Int 1 ]}
  /\ Aggregator.size (Aggregator.drain a).2 = 0%nat
  /\ Aggregator.scopeCount (Aggregator.drain a).2 = 0%nat.
Proof. vm_compute. repeat split; reflexivity. Qed.

Example multi_scope_isolation :
  (Aggregator.drain
     (Aggregator.add_all [event "A" 3; event "B" 10; event "A" (-1)] Aggregator.new)).1
  = {[ "A"%string := JS.Int 2; "B"%string := JS.Int 10 ]}.
Proof. vm_compute. reflexivity. Qed.

End AggregatorFacts.

(* ================================================================== *)
(** ** The read loop beside a suspended flush *)
(* ================================================================== *)

Section ReadActivity.

Implicit Types (b : Bridge).

Lemma read_activity_refl b : read_activity b b.
Proof.
  split; try reflexivity.
  - by exists [].
  - exists []. by rewrite app_nil_r.
  - exists []. by rewrite app_nil_r.
Qed.

Lemma add_all_app (l1 l2 : list CounterEvent) a :
  Aggregator.add_all (l1 ++ l2) a = Aggregator.add_all l2 (Aggregator.add_all l1 a).
Proof. unfold Aggregator.add_all. apply fold_left_app. Qed.

Lemma read_activity_trans b1 b2 b3 :
  read_activity b1 b2 -> read_activity b2 b3 -> read_activity b1 b3.
Proof.
  intros [[e1 A1] [i1 P1] [t1 [T1 F1]] ? ? ? ? ? ? ? ? ?]
         [[e2 A2] [i2 P2] [t2 [T2 F2]] ? ? ? ? ? ? ? ? ?].
  split; try congruence; try lia.
  - exists (e1 ++ e2). by rewrite add_all_app, <- A1.
  - exists (i1 ++ i2). by rewrite P2, P1, app_assoc.
  - exists (t1 ++ t2). split; [by rewrite T2, T1, app_assoc | by apply Forall_app].
Qed.

Lemma steady_ret {A} (a : A) : steady (ret a).
Proof. intros b. exists a, b. split; [done | apply read_activity_refl]. Qed.

Lemma steady_get {A} (f : Bridge -> A) : steady (get f).
Proof. intros b. exists (f b), b. split; [done | apply read_activity_refl]. Qed.

Lemma steady_bind {A B} (m : M A) (k : A -> M B) :
  steady m -> (forall a, steady (k a)) -> steady (bind m k).
Proof.
  intros Hm Hk b. destruct (Hm b) as (a & b1 & E1 & R1).
  destruct (Hk a b1) as (x & b2 & E2 & R2).
  exists x, b2. unfold bind. rewrite E1. split; [done|].
  by apply read_activity_trans with b1.
Qed.

Lemma steady_when (c : bool) (m : M unit) : steady m -> steady (when c m).
Proof. destruct c; [done | intros _; apply steady_ret]. Qed.

Lemma steady_for_each {A} (xs : list A) (body : A -> M unit) :
  (forall x, steady (body x)) -> steady (for_each xs body).
Proof.
  intros Hbody. induction xs as [|x xs IH]; simpl.
  - apply steady_ret.
  - apply steady_bind; [apply Hbody | intros _; apply IH].
Qed.

Lemma steady_record (e : Effect) : read_effect e -> steady (record e).
Proof.
  intros He b. eexists tt, _. split; [reflexivity|].
  split; simpl; try reflexivity.
  - by exists [].
  - exists []. by rewrite app_nil_r.
  - exists [e]. split; [done | by constructor].
Qed.

Lemma steady_aggregator_add (e : CounterEvent) : steady (aggregator_add e).
Proof.
  intros b. eexists tt, _. split; [reflexivity|].
  split; simpl; try reflexivity.
  - by exists [e].
  - exists []. by rewrite app_nil_r.
  - exists []. by rewrite app_nil_r.
Qed.

Lemma steady_push_id (id : string) :
  steady (modify (fun b => with_pendingIds (pendingIds b ++ [id]) b)).
Proof.
  intros b. eexists tt, _. split; [reflexivity|].
  split; simpl; try reflexivity.
  - by exists [].
  - by exists [id].
  - exists []. by rewrite app_nil_r.
Qed.

Lemma steady_incr_eventsProcessed : steady (modify_stats incr_eventsProcessed).
Proof.
  intros b. eexists tt, _. split; [reflexivity|].
  split; simpl; try reflexivity.
  - by exists [].
  - exists []. by rewrite app_nil_r.
  - exists []. by rewrite app_nil_r.
Qed.

Lemma steady_count_error (err : Error) : steady (count_error err).
Proof.
  unfold count_error. apply steady_bind; [| intros _; by apply steady_record].
  intros b. eexists tt, _. split; [reflexivity|].
  split; simpl; try reflexivity; try lia.
  - by exists [].
  - exists []. by rewrite app_nil_r.
  - exists []. by rewrite app_nil_r.
Qed.

Lemma steady_parseEvent clock parse fields : steady (parseEvent clock parse fields).
Proof.
  unfold parseEvent.
  destruct (scan_scope _) as [[|c scope]|];
    try (apply steady_bind; [by apply steady_record | intros _; apply steady_ret]).
  destruct (scan_delta _) as [d|];
    try (apply steady_bind; [by apply steady_record | intros _; apply steady_ret]).
  apply steady_bind; [| intros ?; apply steady_ret].
  destruct (scan_metadata _) as [[|c' md]|]; try apply steady_ret.
  destruct (parse _); [apply steady_ret|].
  apply steady_bind; [by apply steady_record | intros _; apply steady_ret].
Qed.

Lemma steady_fold_results clock parse results :
  steady (fold_results clock parse results).
Proof.
  apply steady_for_each. intros stream. apply steady_for_each. intros msg.
  unfold fold_message. apply steady_bind; [apply steady_parseEvent|].
  intros [event|]; [| apply steady_ret].
  apply steady_bind; [apply steady_aggregator_add | intros _].
  apply steady_bind; [apply steady_push_id | intros _].
  apply steady_incr_eventsProcessed.
Qed.

Lemma steady_readLoop_head : steady readLoop_head.
Proof.
  unfold readLoop_head.
  apply steady_bind; [apply steady_get | intros r].
  apply steady_bind; [apply steady_get | intros w].
  apply steady_when. by apply steady_record.
Qed.

Lemma steady_resume_read parse r : steady (resume_read parse r).
Proof.
  unfold resume_read. destruct (round_read r) as [[results|]|err].
  - apply steady_bind; [apply steady_fold_results | intros _].
    apply steady_bind; [apply steady_get | intros n].
    apply steady_bind; [apply steady_get | intros limit].
    destruct (limit <=? n)%nat; [apply steady_ret | apply steady_readLoop_head].
  - apply steady_readLoop_head.
  - apply steady_bind; [apply steady_count_error | intros _; apply steady_readLoop_head].
Qed.

(** While a call is suspended the read loop never throws, and the state
    at the resumption is the suspended one plus read activity. *)
Lemma resumed_spec rounds parse b :
  for_each rounds (resume_read parse) b = Returned tt (resumed rounds parse b)
  /\ read_activity b (resumed rounds parse b).
Proof.
  destruct (steady_for_each rounds (resume_read parse) (steady_resume_read parse) b)
    as ([] & b' & E & R).
  unfold resumed. rewrite E. by split.
Qed.

Lemma resumed_nil parse b : resumed [] parse b = b.
Proof. done. Qed.

Lemma await_resolves {A} call rounds parse (a : A) b :
  await call rounds parse (Resolves a) b
  = Returned a (resumed rounds parse (with_trace (trace b ++ [call]) b)).
Proof.
  unfold await, bind, record, modify.
  by rewrite (proj1 (resumed_spec rounds parse _)).
Qed.

Lemma await_rejects {A} call rounds parse err b :
  await (A := A) call rounds parse (Rejects err) b
  = Thrown err (resumed rounds parse (with_trace (trace b ++ [call]) b)).
Proof.
  unfold await, bind, record, modify.
  by rewrite (proj1 (resumed_spec rounds parse _)).
Qed.

Lemma acknowledged_app t1 t2 :
  acknowledged (t1 ++ t2) = acknowledged t1 ++ acknowledged t2.
Proof. unfold acknowledged. apply flat_map_app. Qed.

Lemma flushed_app t1 t2 : flushed (t1 ++ t2) = flushed t1 ++ flushed t2.
Proof. unfold flushed. apply flat_map_app. Qed.

Lemma emitted_app t1 t2 : emitted (t1 ++ t2) = emitted t1 ++ emitted t2.
Proof. unfold emitted. apply flat_map_app. Qed.

Lemma read_effects_acknowledge_nothing t :
  Forall read_effect t -> acknowledged t = [] /\ flushed t = [].
Proof.
  induction 1 as [|e t He _ [IH1 IH2]]; [done|].
  destruct e as [[]| | | | | | | | |]; simpl in *; try done.
Qed.

Lemma read_activity_acknowledged b b' :
  read_activity b b' -> acknowledged (trace b') = acknowledged (trace b).
Proof.
  intros [_ _ (t & -> & Ht) _ _ _ _ _ _ _ _ _].
  rewrite acknowledged_app, (proj1 (read_effects_acknowledge_nothing t Ht)).
  by rewrite app_nil_r.
Qed.

Lemma read_activity_flushed b b' :
  read_activity b b' -> flushed (trace b') = flushed (trace b).
Proof.
  intros [_ _ (t & -> & Ht) _ _ _ _ _ _ _ _ _].
  rewrite flushed_app, (proj2 (read_effects_acknowledge_nothing t Ht)).
  by rewrite app_nil_r.
Qed.

End ReadActivity.

(* ================================================================== *)
(** ** [doFlush]: the three ends of a flush *)
(* ================================================================== *)

Section FlushFacts.

Implicit Types (b : Bridge) (env : Env).

Lemma with_aggregator_id b : with_aggregator (aggregator b) b = b.
Proof. by destruct b. Qed.

Lemma for_each_add clock (l : list (string * JS.number)) b :
  for_each l (fun entry => aggregator_add (synthetic clock entry)) b
  = Returned tt
      (with_aggregator (Aggregator.add_all (synthetic clock <$> l) (aggregator b)) b).
Proof.
  revert b. induction l as [|entry l IH]; intros b; simpl.
  - unfold ret. by rewrite with_aggregator_id.
  - unfold bind at 1. unfold aggregator_add at 1, modify. by rewrite IH.
Qed.

Lemma re_add_returns clock entries b :
  re_add clock entries b
  = Returned tt
      (with_aggregator
         (Aggregator.add_all (synthetic clock <$> map_to_list entries) (aggregator b)) b).
Proof. apply for_each_add. Qed.




Lemma doFlush_rejected env b err :
  provider_flush env = Rejects err ->
  doFlush env b
  = Returned tt
      (caught env (Aggregator.deltas (aggregator b)) (pendingIds b) err
         (resumed (during_flush env) (JSON_parse env) (snapshot b))).
Proof.
  intros Hflush. unfold doFlush.
  unfold bind at 1. unfold aggregator_drain at 1. cbn [Aggregator.drain].
  unfold bind at 1. unfold splice_pendingIds at 1.
  unfold try_catch. unfold bind at 1.
  rewrite Hflush, await_rejects.
  unfold bind at 1. unfold count_error at 1.
  unfold bind at 1. unfold modify_stats at 1, modify at 1.
  unfold emit, record, modify.
  unfold bind at 1. rewrite re_add_returns.
  reflexivity.
Qed.

(** What [doFlush] does between the answer of the provider and the
    acknowledgement. *)
Lemma handle_result_returns env batch result mid :
  match result with
  | Some {| failed := Some failed |} =>
      when (0 <? size failed)%nat
        (re_add (now env) failed >>
         emit (Warn "Partial flush failure" (Scopes (size failed) (size batch))))
  | _ => ret tt
  end mid
  = Returned tt (requeued env batch (reported result) mid).
Proof.
  unfold requeued, reported.
  destruct result as [[[f|]]|]; try reflexivity.
  destruct (0 <? size f)%nat; [|reflexivity].
  unfold when, bind. by rewrite re_add_returns.
Qed.

Lemma doFlush_resolved env b result :
  provider_flush env = Resolves result ->
  pendingIds b = [] \/ redis_xack env = Resolves tt ->
  doFlush env b
  = Returned tt
      (accounted env (Aggregator.deltas (aggregator b))
         (acked env (pendingIds b)
            (requeued env (Aggregator.deltas (aggregator b)) (reported result)
               (resumed (during_flush env) (JSON_parse env) (snapshot b))))).
Proof.
  intros Hflush Hxack. unfold doFlush.
  unfold bind at 1. unfold aggregator_drain at 1. cbn [Aggregator.drain].
  unfold bind at 1. unfold splice_pendingIds at 1.
  unfold try_catch. unfold bind at 1.
  rewrite Hflush, await_resolves.
  unfold bind at 1. rewrite handle_result_returns.
  unfold bind at 1. unfold acked.
  cbn [pendingIds with_aggregator with_pendingIds aggregator].
  destruct (pendingIds b) as [|id ids]; [reflexivity|].
  destruct Hxack as [Hnil | Hxack]; [done|].
  cbn [length Nat.ltb Nat.leb when].
  rewrite Hxack, await_resolves. reflexivity.
Qed.

(** When the acknowledgement itself fails, the [catch] runs after the
    failed entries were already re-added. *)
Lemma doFlush_xack_rejected env b result err :
  provider_flush env = Resolves result ->
  redis_xack env = Rejects err ->
  pendingIds b <> [] ->
  doFlush env b
  = Returned tt
      (caught env (Aggregator.deltas (aggregator b)) (pendingIds b) err
         (acked env (pendingIds b)
            (requeued env (Aggregator.deltas (aggregator b)) (reported result)
               (resumed (during_flush env) (JSON_parse env) (snapshot b))))).
Proof.
  intros Hflush Hxack Hids. unfold doFlush.
  unfold bind at 1. unfold aggregator_drain at 1. cbn [Aggregator.drain].
  unfold bind at 1. unfold splice_pendingIds at 1.
  unfold try_catch. unfold bind at 1.
  rewrite Hflush, await_resolves.
  unfold bind at 1. rewrite handle_result_returns.
  unfold bind at 1. unfold acked.
  cbn [pendingIds with_aggregator with_pendingIds aggregator].
  destruct (pendingIds b) as [|id ids]; [done|].
  cbn [length Nat.ltb Nat.leb when].
  rewrite Hxack, await_rejects.
  unfold bind at 1. unfold count_error at 1.
  unfold bind at 1. unfold modify_stats at 1, modify at 1.
  unfold emit, record, modify.
  unfold bind at 1. rewrite re_add_returns.
  reflexivity.
Qed.

(** [doFlush] never throws. *)
Lemma doFlush_returns env b : exists b', doFlush env b = Returned tt b'.
Proof.
  destruct (provider_flush env) as [result|err] eqn:Hflush.
  - destruct (redis_xack env) as [[]|err] eqn:Hxack.
    + eexists. apply doFlush_resolved with (result := result); auto.
    + destruct (decide (pendingIds b = [])) as [Hids | Hids].
      * eexists. apply doFlush_resolved with (result := result); auto.
      * eexists. by apply doFlush_xack_rejected with (err := err).
  - eexists. by apply doFlush_rejected.
Qed.

Lemma acked_spec env ids b1 :
  (exists later, aggregator (acked env ids b1)
                 = Aggregator.add_all later (aggregator b1))
  /\ (exists later_ids, pendingIds (acked env ids b1) = pendingIds b1 ++ later_ids)
  /\ (exists t, trace (acked env ids b1) = trace b1 ++ t)
  /\ acknowledged (trace (acked env ids b1)) = acknowledged (trace b1) ++ ids
  /\ flushed (trace (acked env ids b1)) = flushed (trace b1)
  /\ flushCount (stats (acked env ids b1)) = flushCount (stats b1)
  /\ avgBatchSize (stats (acked env ids b1)) = avgBatchSize (stats b1)
  /\ (during_xack env = [] ->
      aggregator (acked env ids b1) = aggregator b1
      /\ pendingIds (acked env ids b1) = pendingIds b1
      /\ stats (acked env ids b1) = stats b1).
Proof.
  unfold acked. destruct ids as [|id ids].
  - cbn [length Nat.ltb Nat.leb].
    repeat apply conj; try reflexivity.
    + by exists [].
    + exists []. by rewrite app_nil_r.
    + exists []. by rewrite app_nil_r.
    + by rewrite app_nil_r.
    + done.
  - cbn [length Nat.ltb Nat.leb].
    set (called := with_trace (trace b1 ++ [XAck (id :: ids)]) b1).
    pose proof (proj2 (resumed_spec (during_xack env) (JSON_parse env) called)) as Hr.
    destruct Hr as [Ha Hp (t & Ht & Hread) Hfc Havg _ _ _ _ _ _ _].
    repeat apply conj.
    + exact Ha.
    + exact Hp.
    + exists ([XAck (id :: ids)] ++ t). rewrite Ht. unfold called. cbn.
      rewrite <- app_assoc. reflexivity.
    + rewrite Ht, acknowledged_app.
      rewrite (proj1 (read_effects_acknowledge_nothing t Hread)), app_nil_r.
      unfold called. cbn. rewrite acknowledged_app. cbn. by rewrite app_nil_r.
    + rewrite Ht, flushed_app.
      rewrite (proj2 (read_effects_acknowledge_nothing t Hread)), app_nil_r.
      unfold called. cbn. rewrite flushed_app. cbn. by rewrite app_nil_r.
    + exact Hfc.
    + exact Havg.
    + intros ->. by rewrite resumed_nil.
Qed.












End FlushFacts.

(* ================================================================== *)
(** ** [parseEvent] *)
(* ================================================================== *)

Section ParserFacts.

Implicit Types (b : Bridge) (fields : list string).

Lemma list_pair_ind {A} (P : list A -> Prop) :
  P [] -> (forall x, P [x]) -> (forall x y l, P l -> P (x :: y :: l)) ->
  forall l, P l.
Proof.
  intros H0 H1 H2 l.
  enough (P l /\ forall x, P (x :: l)) by tauto.
  induction l as [|y l [IH1 IH2]]; split; auto.
Qed.

(** The scan of the four variables is four independent look-ups. *)
Lemma scan_last_value fields :
  forall s,
    scan fields s
    = {| scan_scope := last_value "scope" fields (scan_scope s);
         scan_delta := last_value "delta" fields (scan_delta s);
         scan_timestamp := last_value "timestamp" fields (scan_timestamp s);
         scan_metadata := last_value "metadata" fields (scan_metadata s) |}.
Proof.
  induction fields as [|k|k v rest IH] using list_pair_ind; intros s.
  - by destruct s.
  - cbn [scan last_value]. unfold assign.
    repeat (case_decide; subst; try discriminate); by destruct s.
  - cbn [scan last_value]. rewrite IH. unfold assign.
    repeat (case_decide; subst; try discriminate); reflexivity.
Qed.

Lemma scan_fields fields :
  scan fields no_fields
  = {| scan_scope := field "scope" fields;
       scan_delta := field "delta" fields;
       scan_timestamp := field "timestamp" fields;
       scan_metadata := field "metadata" fields |}.
Proof. apply scan_last_value. Qed.

(** What the parser does with the metadata of an event it keeps. *)
Lemma parseEvent_kept clock parse fields b c scope0 d :
  field "scope" fields = Some (String c scope0) ->
  field "delta" fields = Some d ->
  exists md t,
    parseEvent clock parse fields b
    = Returned
        (Some {| scope := String c scope0;
                 delta := JS.Number d;
                 metadata := md;
                 timestamp := Some (match field "timestamp" fields with
                                    | Some t => JS.Number t
                                    | None => JS.Int clock
                                    end) |})
        (with_trace (trace b ++ t) b)
    /\ (t = [] \/
        t = [Emit (Warn "Failed to parse event metadata" (Scope (String c scope0)))]).
Proof.
  intros Hs Hd. unfold parseEvent. rewrite scan_fields.
  cbn [scan_scope scan_delta scan_timestamp scan_metadata]. rewrite Hs, Hd.
  assert (with_trace (trace b ++ []) b = b) as Hid
    by (rewrite app_nil_r; by destruct b).
  destruct (field "metadata" fields) as [[|c' md]|].
  - exists None, []. rewrite Hid. by split; [|left].
  - destruct (parse (String c' md)) as [v|] eqn:Hp.
    + exists (Some v), []. unfold bind, ret. rewrite Hid. by split; [|left].
    + eexists None, _. unfold bind, ret. cbn. by split; [|right].
  - exists None, []. rewrite Hid. by split; [|left].
Qed.

Lemma parseEvent_dropped clock parse fields b :
  truthy (field "scope" fields) = false \/ field "delta" fields = None ->
  parseEvent clock parse fields b
  = Returned None (with_trace (trace b ++ [dropped fields]) b).
Proof.
  intros H. unfold parseEvent. rewrite scan_fields.
  cbn [scan_scope scan_delta].
  destruct (field "scope" fields) as [[|c sc]|], (field "delta" fields) as [d|];
    try reflexivity.
  destruct H; discriminate.
Qed.

(** C5, as the code has it.  The parser keeps an event exactly when the
    fields hold a non-empty scope and a delta, whatever the text of the
    delta: the delta of the event is [Number(delta)], which is [NaN] for
    a text that is no number.  Otherwise it emits the warning "Dropped
    malformed event" with the raw fields and returns no event. *)
Theorem parseEvent_checks_presence_only (clock : Z)
    (parse : string -> option JS.json) (fields : list string) (b : Bridge) :
  (truthy (field "scope" fields) = true /\ field "delta" fields <> None ->
   exists e t,
     parseEvent clock parse fields b
     = Returned (Some e) (with_trace (trace b ++ t) b)
     /\ Some (scope e) = field "scope" fields
     /\ Some (delta e) = (JS.Number <$> field "delta" fields)
     /\ dropped fields ∉ t)
  /\ (truthy (field "scope" fields) = false \/ field "delta" fields = None ->
      parseEvent clock parse fields b
      = Returned None (with_trace (trace b ++ [dropped fields]) b)).
Proof.
  split; [| apply parseEvent_dropped].
  intros [Hs Hd].
  destruct (field "scope" fields) as [[|c sc]|] eqn:Es; try discriminate Hs.
  destruct (field "delta" fields) as [d|] eqn:Ed; [|done].
  destruct (parseEvent_kept clock parse fields b c sc d Es Ed) as (md & t & E & Ht).
  eexists _, t. split; [exact E|]. cbn.
  split; [done|]. split; [done|].
  destruct Ht as [-> | ->].
  - apply not_elem_of_nil.
  - intros H%list_elem_of_singleton. discriminate H.
Qed.

Lemma parseEvent_checks_presence_only_witness :
  truthy (field "scope" ["scope"; "x"; "delta"; "3"]%string) = true
  /\ field "delta" ["scope"; "x"; "delta"; "3"]%string <> None
  /\ exists e t,
       parseEvent 1000 no_json ["scope"; "x"; "delta"; "3"]%string test_bridge
       = Returned (Some e) (with_trace (trace test_bridge ++ t) test_bridge)
       /\ Some (scope e) = Some "x"%string
       /\ Some (delta e) = Some (JS.Int 3).
Proof.
  assert (truthy (field "scope" ["scope"; "x"; "delta"; "3"]%string) = true
          /\ field "delta" ["scope"; "x"; "delta"; "3"]%string <> None) as H
    by (split; [reflexivity | discriminate]).
  split; [apply H|]. split; [apply H|].
  destruct (proj1 (parseEvent_checks_presence_only 1000 no_json
                     ["scope"; "x"; "delta"; "3"]%string test_bridge) H)
    as (e & t & E & Hs & Hd & _).
  exists e, t. split; [exact E|]. split; [exact Hs | exact Hd].
Defined.

(** C5 fails on the code: a delta that is no number is not dropped; an
    event with the delta [NaN] is produced and no warning is emitted. *)
Lemma unparseable_delta_is_kept :
  JS.Number "abc" = JS.NaN
  /\ JS.is_integer (JS.Number "abc") = false
  /\ parseEvent 1000 no_json ["scope"; "x"; "delta"; "abc"]%string test_bridge
     = Returned
         (Some {| scope := "x"; delta := JS.NaN; metadata := None;
                  timestamp := Some (JS.Int 1000) |})
         test_bridge.
Proof. repeat split; reflexivity. Qed.

(** C6, as the code has it.  The timestamp of a parsed event is the
    clock when the fields hold no timestamp; a timestamp that is there is
    converted by [Number] as it is, so that a text that is no number
    gives [NaN] and not the clock. *)
Theorem parseEvent_timestamp (clock : Z) (parse : string -> option JS.json)
    (fields : list string) (b b' : Bridge) (e : CounterEvent) :
  parseEvent clock parse fields b = Returned (Some e) b' ->
  timestamp e
  = Some (match field "timestamp" fields with
          | Some t => JS.Number t
          | None => JS.Int clock
          end).
Proof.
  intros E.
  destruct (field "scope" fields) as [[|c sc]|] eqn:Es;
    try (rewrite parseEvent_dropped in E by (left; by rewrite Es); discriminate E).
  destruct (field "delta" fields) as [d|] eqn:Ed;
    try (rewrite parseEvent_dropped in E by (by right); discriminate E).
  destruct (parseEvent_kept clock parse fields b c sc d Es Ed) as (md & t & E' & _).
  rewrite E' in E. by injection E as <- _.
Qed.

Lemma parseEvent_timestamp_witness :
  parseEvent 1000 no_json ["scope"; "x"; "delta"; "3"]%string test_bridge
  = Returned (Some {| scope := "x"; delta := JS.Int 3; metadata := None;
                      timestamp := Some (JS.Int 1000) |}) test_bridge
  /\ timestamp {| scope := "x"; delta := JS.Int 3; metadata := None;
                  timestamp := Some (JS.Int 1000) |}
     = Some (JS.Int 1000).
Proof.
  split; [reflexivity|].
  exact (parseEvent_timestamp 1000 no_json ["scope"; "x"; "delta"; "3"]%string
           test_bridge test_bridge _ eq_refl).
Defined.

(** C6 fails on the code: a timestamp that is no number gives [NaN]. *)
Lemma unparseable_timestamp_is_NaN :
  parseEvent 1000 no_json
    ["scope"; "x"; "delta"; "1"; "timestamp"; "abc"]%string test_bridge
  = Returned
      (Some {| scope := "x"; delta := JS.Int 1; metadata := None;
               timestamp := Some JS.NaN |})
      test_bridge
  /\ Some JS.NaN <> Some (JS.Int 1000).
Proof. split; [reflexivity | discriminate]. Qed.

(** The sixth scenario: the fields [bad, data] are dropped with the
    warning, and nothing is folded. *)
Example malformed_event_dropped :
  parseEvent 1000 no_json ["bad"; "data"]%string test_bridge
  = Returned None
      (with_trace [Emit (Warn "Dropped malformed event" (Fields ["bad"; "data"]%string))]
         test_bridge).
Proof. reflexivity. Qed.

End ParserFacts.

(* ================================================================== *)
(** ** Errors at run time, and [start] *)
(* ================================================================== *)

Section LifecycleFacts.

Implicit Types (b : Bridge) (env : Env).

Lemma same_settings_refl b : same_settings b b.
Proof. repeat split. exists []. by rewrite app_nil_r. Qed.

Lemma same_settings_trans b1 b2 b3 :
  same_settings b1 b2 -> same_settings b2 b3 -> same_settings b1 b3.
Proof.
  intros (? & ? & ? & ? & ? & t1 & T1) (? & ? & ? & ? & ? & t2 & T2).
  repeat split; try congruence.
  exists (t1 ++ t2). by rewrite T2, T1, app_assoc.
Qed.

Lemma read_activity_settings b b' : read_activity b b' -> same_settings b b'.
Proof.
  intros [_ _ (t & Ht & _) _ _ _ _ ? ? ? ? ?].
  repeat split; try done. by exists t.
Qed.

Lemma resumed_settings rounds parse b : same_settings b (resumed rounds parse b).
Proof. apply read_activity_settings, resumed_spec. Qed.

Lemma snapshot_settings b : same_settings b (snapshot b).
Proof. repeat split. by eexists. Qed.

Lemma requeued_settings env batch failed b : same_settings b (requeued env batch failed b).
Proof.
  unfold requeued. destruct (0 <? size failed)%nat; [| apply same_settings_refl].
  repeat split. by eexists.
Qed.

Lemma acked_settings env ids b : same_settings b (acked env ids b).
Proof.
  unfold acked. destruct (0 <? length ids)%nat; [| apply same_settings_refl].
  eapply same_settings_trans; [| apply resumed_settings].
  repeat split. by eexists.
Qed.

Lemma accounted_settings env batch b : same_settings b (accounted env batch b).
Proof. repeat split. by eexists. Qed.

Lemma caught_settings env batch ids err b : same_settings b (caught env batch ids err b).
Proof. repeat split. by eexists. Qed.

Lemma doFlush_settings env b :
  exists b', doFlush env b = Returned tt b' /\ same_settings b b'.
Proof.
  assert (same_settings b
            (requeued env (Aggregator.deltas (aggregator b))
               (reported match provider_flush env with
                         | Resolves r => r | Rejects _ => None end)
               (resumed (during_flush env) (JSON_parse env) (snapshot b)))) as Hheld.
  { eapply same_settings_trans; [apply snapshot_settings|].
    eapply same_settings_trans; [apply resumed_settings | apply requeued_settings]. }
  destruct (provider_flush env) as [result|err] eqn:Hflush.
  - destruct (redis_xack env) as [[]|err] eqn:Hxack.
    + eexists. split; [apply doFlush_resolved with (result := result); auto|].
      eapply same_settings_trans; [exact Hheld|].
      eapply same_settings_trans; [apply acked_settings | apply accounted_settings].
    + destruct (decide (pendingIds b = [])) as [Hids | Hids].
      * eexists. split; [apply doFlush_resolved with (result := result); auto|].
        eapply same_settings_trans; [exact Hheld|].
        eapply same_settings_trans; [apply acked_settings | apply accounted_settings].
      * eexists. split; [by apply doFlush_xack_rejected with (err := err)|].
        eapply same_settings_trans; [exact Hheld|].
        eapply same_settings_trans; [apply acked_settings | apply caught_settings].
  - eexists. split; [by apply doFlush_rejected|].
    eapply same_settings_trans; [apply snapshot_settings|].
    eapply same_settings_trans; [apply resumed_settings | apply caught_settings].
Qed.

(** [flush] never throws, and releases the mutex it took. *)
Lemma flush_returns env b :
  exists b', flush env b = Returned tt b'
             /\ running b' = running b
             /\ windowMs b' = windowMs b
             /\ flushing b' = flushing b
             /\ exists t, trace b' = trace b ++ t.
Proof.
  unfold flush. unfold bind at 1. unfold get at 1.
  destruct (flushing b) eqn:Hbusy.
  { exists b. repeat split; try done. exists []. by rewrite app_nil_r. }
  unfold bind at 1. unfold get at 1.
  destruct (Aggregator.size (aggregator b) =? 0)%nat.
  { exists b. repeat split; try done. exists []. by rewrite app_nil_r. }
  unfold bind at 1. unfold modify at 1. unfold try_finally.
  destruct (doFlush_settings env (with_flushing true b))
    as (b' & E & Hr & _ & _ & Hw & _ & t & Ht).
  rewrite E. eexists. split; [reflexivity|].
  cbn in *. repeat split; try done. by exists t.
Qed.

(** The recovery never throws; it starts with the read of the pending
    entries. *)
Lemma recoverPending_returns env b :
  exists b' t,
    recoverPending env b = Returned tt b'
    /\ running b' = running b
    /\ windowMs b' = windowMs b
    /\ trace b' = trace b ++ XReadGroup "0" None :: t.
Proof.
  unfold recoverPending, try_catch. unfold bind at 1.
  destruct (redis_xreadgroup env) as [[results|]|err].
  - rewrite await_resolves, resumed_nil.
    destruct (steady_fold_results (now env) (JSON_parse env) results
                (with_trace (trace b ++ [XReadGroup "0" None]) b))
      as ([] & b1 & E1 & R1).
    unfold bind at 1. rewrite E1.
    destruct (read_activity_settings _ _ R1) as (Hr1 & _ & _ & Hw1 & _ & t1 & Ht1).
    cbn in Hr1, Hw1, Ht1.
    unfold bind at 1. unfold get at 1.
    destruct (0 <? Aggregator.size (aggregator b1))%nat.
    + unfold when, bind at 1. unfold emit, record, modify.
      destruct (flush_returns env
                  (with_trace (trace b1 ++ [Emit (Recovery (Aggregator.size (aggregator b1)))]) b1))
        as (b2 & E2 & Hr2 & Hw2 & _ & t2 & Ht2).
      rewrite E2. cbn in Hr2, Hw2, Ht2.
      exists b2, (t1 ++ [Emit (Recovery (Aggregator.size (aggregator b1)))] ++ t2).
      split; [reflexivity|].
      repeat apply conj; try congruence.
      rewrite Ht2, Ht1. rewrite <- !app_assoc. reflexivity.
    + exists b1, t1. split; [reflexivity|].
      repeat apply conj; try congruence.
      rewrite Ht1. rewrite <- !app_assoc. reflexivity.
  - rewrite await_resolves, resumed_nil.
    eexists _, []. split; [reflexivity|]. by repeat apply conj.
  - rewrite await_rejects, resumed_nil.
    eexists _, [Emit (Failure err)]. split; [reflexivity|]. cbn.
    repeat apply conj; try reflexivity.
    rewrite <- app_assoc. reflexivity.
Qed.



(** [start] from the recovery on. *)
Lemma start_from_recovery env b3 :
  running b3 = true ->
  exists recovered rest b',
    recoverPending env b3 = Returned tt recovered
    /\ trace recovered = trace b3 ++ XReadGroup "0" None :: rest
    /\ (recoverPending env >> readLoop_head >> scheduleFlush) b3 = Returned tt b'
    /\ running b' = true
    /\ flushTimer b' = true
    /\ trace b' = trace recovered
                  ++ [XReadGroup ">" (Some (windowMs b3)); SetTimeout (windowMs b3)].
Proof.
  intros Hrun.
  destruct (recoverPending_returns env b3) as (b4 & rest & E & Hr & Hw & Ht).
  exists b4, rest. eexists. split; [exact E|]. split; [exact Ht|].
  unfold bind at 1. rewrite E.
  unfold bind at 1. unfold readLoop_head. unfold bind at 1. unfold get at 1.
  unfold bind at 1. unfold get at 1.
  rewrite Hr, Hrun, Hw. cbn [when]. unfold record at 1, modify at 1.
  unfold scheduleFlush. unfold bind at 1. unfold get at 1.
  cbn [running with_trace]. rewrite Hr, Hrun. cbn [negb].
  unfold bind at 1. unfold get at 1. cbn [windowMs with_trace]. rewrite Hw.
  unfold bind at 1. unfold record at 1, modify at 1. unfold modify.
  split; [reflexivity|]. cbn. rewrite Hr, Hrun.
  repeat apply conj; try reflexivity.
  by rewrite <- app_assoc.
Qed.

Lemma start_proceeds env b :
  running b = false ->
  (forall e, provider_initialize env <> Some (Rejects e)) ->
  (forall e, redis_xgroup env = Rejects e -> not_busygroup e = false) ->
  start env b
  = (recoverPending env >> readLoop_head >> scheduleFlush) (started_state env b).
Proof.
  intros Hrun Hinit Hgroup. unfold start, started_state, init_effects.
  unfold bind at 1. unfold get at 1. rewrite Hrun.
  unfold bind at 1.
  destruct (provider_initialize env) as [[[]|e]|] eqn:Ei.
  - rewrite await_resolves, resumed_nil.
    unfold bind at 1. unfold get at 1. unfold bind at 1. unfold get at 1.
    unfold bind at 1. unfold try_catch.
    destruct (redis_xgroup env) as [[]|e] eqn:Eg.
    + rewrite await_resolves, resumed_nil.
      unfold bind at 1. unfold modify at 1.
      unfold bind at 1. unfold emit at 1, record at 1, modify at 1.
      cbn. rewrite <- !app_assoc. reflexivity.
    + rewrite await_rejects, resumed_nil. rewrite (Hgroup e eq_refl).
      unfold ret at 1.
      unfold bind at 1. unfold modify at 1.
      unfold bind at 1. unfold emit at 1, record at 1, modify at 1.
      cbn. rewrite <- !app_assoc. reflexivity.
  - by destruct (Hinit e).
  - unfold ret at 1.
    unfold bind at 1. unfold get at 1. unfold bind at 1. unfold get at 1.
    unfold bind at 1. unfold try_catch.
    destruct (redis_xgroup env) as [[]|e] eqn:Eg.
    + rewrite await_resolves, resumed_nil.
      unfold bind at 1. unfold modify at 1.
      unfold bind at 1. unfold emit at 1, record at 1, modify at 1.
      cbn. rewrite <- !app_assoc. reflexivity.
    + rewrite await_rejects, resumed_nil. rewrite (Hgroup e eq_refl).
      unfold ret at 1.
      unfold bind at 1. unfold modify at 1.
      unfold bind at 1. unfold emit at 1, record at 1, modify at 1.
      cbn. rewrite <- !app_assoc. reflexivity.
Qed.

(** C8, as the code has it.  When [start] goes through, the order is:
    provider [initialize], ensure the consumer group, mark running, emit
    [started], the recovery (awaited to its end), the first read of the
    read loop, the flush timer.  The recovery runs from a state that is
    already marked running and after [started] was emitted. *)
Theorem start_runs_recovery_after_started (env : Env) (b : Bridge) :
  running b = false ->
  (forall e, provider_initialize env <> Some (Rejects e)) ->
  (forall e, redis_xgroup env = Rejects e -> not_busygroup e = false) ->
  exists recovered rest b',
    running (started_state env b) = true
    /\ last (trace (started_state env b)) = Some (Emit Started)
    /\ recoverPending env (started_state env b) = Returned tt recovered
    /\ start env b = Returned tt b'
    /\ running b' = true
    /\ flushTimer b' = true
    /\ trace b'
       = trace b
         ++ init_effects env
         ++ [XGroupCreate (streamKey b) (groupName b); Emit Started]
         ++ [XReadGroup "0" None] ++ rest
         ++ [XReadGroup ">" (Some (windowMs b)); SetTimeout (windowMs b)]
    /\ trace recovered
       = trace (started_state env b) ++ [XReadGroup "0" None] ++ rest.
Proof.
  intros Hrun Hinit Hgroup.
  destruct (start_from_recovery env (started_state env b) eq_refl)
    as (recovered & rest & b' & E & Ht & Es & Hr & Hf & Ht').
  exists recovered, rest, b'.
  repeat apply conj; try done.
  - unfold started_state. cbn [trace with_trace].
    change [XGroupCreate (streamKey b) (groupName b); Emit Started]
      with ([XGroupCreate (streamKey b) (groupName b)] ++ [Emit Started]).
    rewrite !app_assoc. apply last_snoc.
  - by rewrite start_proceeds.
  - rewrite Ht', Ht. unfold started_state. cbn.
    rewrite <- !app_assoc. reflexivity.
Qed.


Lemma start_runs_recovery_after_started_witness :
  running test_bridge = false
  /\ (forall e, provider_initialize recovery_world <> Some (Rejects e))
  /\ (forall e, redis_xgroup recovery_world = Rejects e -> not_busygroup e = false)
  /\ exists b',
       start recovery_world test_bridge = Returned tt b'
       /\ running b' = true
       /\ take 4 (trace b')
          = [ProviderInitialize; XGroupCreate "test:stream" "test-group";
             Emit Started; XReadGroup "0" None].
Proof.
  assert (forall e, provider_initialize recovery_world <> Some (Rejects e)) as Hi
    by (intros e; discriminate).
  assert (forall e, redis_xgroup recovery_world = Rejects e -> not_busygroup e = false)
    as Hg by (intros e; discriminate).
  split; [reflexivity|]. split; [exact Hi|]. split; [exact Hg|].
  destruct (start_runs_recovery_after_started recovery_world test_bridge eq_refl Hi Hg)
    as (recovered & rest & b' & _ & _ & _ & E & Hr & _ & Ht & _).
  exists b'. split; [exact E|]. split; [exact Hr|].
  rewrite Ht. reflexivity.
Defined.

(** C8 fails on the code: in the recovery scenario [started] is emitted
    before the recovery read is even issued. *)
Lemma started_precedes_recovery :
  trace (state_of (start recovery_world test_bridge))
  = [ProviderInitialize; XGroupCreate "test:stream" "test-group";
     Emit Started;
     XReadGroup "0" None; Emit (Recovery 1);
     ProviderFlush {[ "x"%string := JS.Int 3 ]}; XAck ["1-0"%string];
     Emit (Flush 1 1);
     XReadGroup ">" (Some 500%nat); SetTimeout 500].
Proof. vm_compute. reflexivity. Qed.



End LifecycleFacts.

(* ================================================================== *)
(** ** The Mongo provider *)
(* ================================================================== *)

Section MongoFacts.

(** A batch that is not empty is written in exactly one [bulkWrite], one
    upsert per scope. *)
Lemma mongo_flush_writes_once bulkWrite (batch : gmap string JS.number) :
  batch <> ∅ ->
  exists ops,
    (MongoProvider.flush bulkWrite batch).2 = [ops]
    /\ length ops = size batch.
Proof.
  intros Hne. unfold MongoProvider.flush.
  destruct (size batch =? 0)%nat eqn:E.
  - apply Nat.eqb_eq in E. by apply map_size_empty_iff in E.
  - eexists. split.
    + destruct (bulkWrite _) as [err|]; [|reflexivity].
      match goal with |- context [match ?p with Some _ => _ | None => _ end] =>
        destruct p end; reflexivity.
    + by rewrite length_map, length_map_to_list.
Qed.

(** C10.  [flush] of an empty batch returns at once: it resolves to
    [undefined] and makes no [bulkWrite] call, whatever the database would
    have answered; and the empty batch is the only one for which no
    [bulkWrite] call is made. *)
Theorem mongo_flush_skips_empty_batch
    (bulkWrite : list MongoProvider.UpdateOne -> option MongoProvider.BulkError)
    (batch : gmap string JS.number) :
  MongoProvider.flush bulkWrite ∅ = (MongoProvider.Void, [])
  /\ (batch = ∅ <-> (MongoProvider.flush bulkWrite batch).2 = []).
Proof.
  split; [reflexivity|]. split.
  - intros ->. reflexivity.
  - intros Hcalls. destruct (decide (batch = ∅)) as [|Hne]; [done|].
    destruct (mongo_flush_writes_once bulkWrite batch Hne) as (ops & E & _).
    rewrite E in Hcalls. discriminate Hcalls.
Qed.

(** The partial failure of the provider tests: of three operations the
    one at index 1 fails, and its scope alone is reported. *)
Example mongo_partial_failure :
  let batch : gmap string JS.number :=
    {[ "a"%string := JS.Int 1; "b"%string := JS.Int 2; "c"%string := JS.Int 3 ]} in
  let failing := (map_to_list batch).*1 !! 1%nat in
  forall scope0 d, failing = Some scope0 -> batch !! scope0 = Some d ->
  (MongoProvider.flush
     (fun _ => Some {| MongoProvider.error :=
                         {| name := "MongoBulkWriteError"; message := Some "Partial failure" |};
                       MongoProvider.result := Some (Some [1%nat]);
                       MongoProvider.writeErrors := None |})
     batch).1
  = MongoProvider.Partial {| failed := Some {[ scope0 := d ]} |}.
Proof.
  intros batch failing scope0 d Hs Hd. unfold MongoProvider.flush.
  vm_compute in Hs. injection Hs as <-. vm_compute in Hd. injection Hd as <-.
  vm_compute. reflexivity.
Qed.

End MongoFacts.

(* ================================================================== *)
(** ** Further properties of the aggregator *)
(* ================================================================== *)

Section AggregatorCounts.

Implicit Types (a : Aggregator.t) (e : CounterEvent).

Lemma dom_add_all (events : list CounterEvent) a :
  dom (Aggregator.deltas (Aggregator.add_all events a))
  = list_to_set (scope <$> events) ∪ dom (Aggregator.deltas a).
Proof.
  revert a. induction events as [|e events IH]; intros a.
  - cbn. by rewrite (left_id_L ∅ (∪)).
  - change (Aggregator.add_all (e :: events) a)
      with (Aggregator.add_all events (Aggregator.add e a)).
    rewrite IH. unfold Aggregator.add at 1. cbn [Aggregator.deltas].
    rewrite dom_insert_L, fmap_cons. cbn [list_to_set].
    rewrite (assoc_L (∪)). f_equal. apply (comm_L (∪)).
Qed.

Lemma size_list_to_set_le (l : list string) :
  (size (list_to_set l : gset string) <= length l)%nat.
Proof.
  induction l as [|x l IH]; cbn [list_to_set length].
  - by rewrite size_empty.
  - rewrite size_union_alt, size_singleton.
    assert (size ((list_to_set l : gset string) ∖ {[x]}) <= size (list_to_set l : gset string))%nat
      by (apply subseteq_size, subseteq_difference_l; reflexivity).
    lia.
Qed.

(** X1.  [size] is the number of events added since the last drain,
    [scopeCount] the number of distinct scopes among them; so
    [scopeCount <= size]. *)
Theorem aggregator_counts_events_and_scopes (events : list CounterEvent) :
  let a := Aggregator.add_all events Aggregator.new in
  Aggregator.size a = length events
  /\ dom (Aggregator.deltas a) = list_to_set (scope <$> events)
  /\ Aggregator.scopeCount a = size (list_to_set (scope <$> events) : gset string)
  /\ (Aggregator.scopeCount a <= Aggregator.size a)%nat.
Proof.
  intros a.
  assert (Aggregator.size a = length events) as Hsize.
  { unfold a. rewrite count_add_all. cbn. lia. }
  assert (dom (Aggregator.deltas a) = list_to_set (scope <$> events)) as Hdom.
  { unfold a. rewrite dom_add_all. cbn. rewrite dom_empty_L. apply (right_id_L ∅ (∪)). }
  assert (Aggregator.scopeCount a = size (list_to_set (scope <$> events) : gset string))
    as Hcount.
  { unfold Aggregator.scopeCount. by rewrite <- size_dom, Hdom. }
  repeat apply conj; try done.
  rewrite Hcount, Hsize. etrans; [apply size_list_to_set_le|]. by rewrite length_fmap.
Qed.

Lemma plus_NaN_r (x : JS.number) : JS.plus x JS.NaN = JS.NaN.
Proof. by destruct x. Qed.

Lemma fold_scope_NaN s (events : list CounterEvent) :
  fold_scope s events (Some JS.NaN) = Some JS.NaN.
Proof.
  induction events as [|e events IH]; [done|].
  change (fold_scope s (e :: events) (Some JS.NaN))
    with (fold_scope s events
            (if decide (scope e = s)
             then Some (JS.plus (default (JS.Int 0) (Some JS.NaN)) (delta e))
             else Some JS.NaN)).
  by destruct (decide (scope e = s)).
Qed.

Lemma fold_scope_app s (l1 l2 : list CounterEvent) v :
  fold_scope s (l1 ++ l2) v = fold_scope s l2 (fold_scope s l1 v).
Proof. unfold fold_scope. apply fold_left_app. Qed.

(** X2.  A delta that is [NaN] poisons its scope: whatever else is added
    before or after it, the value of the scope is [NaN] until the next
    drain. *)
Theorem NaN_delta_poisons_scope (events : list CounterEvent) (e : CounterEvent)
    (a : Aggregator.t) :
  e ∈ events ->
  delta e = JS.NaN ->
  Aggregator.deltas (Aggregator.add_all events a) !! scope e = Some JS.NaN.
Proof.
  intros (l1 & l2 & ->)%list_elem_of_split Hnan.
  rewrite lookup_add_all.
  change (l1 ++ e :: l2) with (l1 ++ [e] ++ l2).
  rewrite !fold_scope_app.
  assert (fold_scope (scope e) [e] (fold_scope (scope e) l1 (Aggregator.deltas a !! scope e))
          = Some JS.NaN) as ->.
  { unfold fold_scope at 1. cbn [fold_left]. rewrite decide_True by done.
    by rewrite Hnan, plus_NaN_r. }
  apply fold_scope_NaN.
Qed.

Lemma NaN_delta_poisons_scope_witness :
  {| scope := "x"; delta := JS.Number "abc"; metadata := None; timestamp := None |}
    ∈ [event "x" 1;
       {| scope := "x"; delta := JS.Number "abc"; metadata := None; timestamp := None |};
       event "x" 2]
  /\ JS.Number "abc" = JS.NaN
  /\ Aggregator.deltas
       (Aggregator.add_all
          [event "x" 1;
           {| scope := "x"; delta := JS.Number "abc"; metadata := None; timestamp := None |};
           event "x" 2]
          Aggregator.new) !! "x"%string
     = Some JS.NaN.
Proof.
  assert ({| scope := "x"; delta := JS.Number "abc"; metadata := None; timestamp := None |}
            ∈ [event "x" 1;
               {| scope := "x"; delta := JS.Number "abc"; metadata := None;
                  timestamp := None |};
               event "x" 2]) as Hin
    by (apply list_elem_of_further, list_elem_of_here).
  split; [exact Hin|]. split; [reflexivity|].
  exact (NaN_delta_poisons_scope _ _ Aggregator.new Hin eq_refl).
Defined.

End AggregatorCounts.

(* ================================================================== *)
(** ** What a read folds *)
(* ================================================================== *)

Section IngestFacts.

Implicit Types (b : Bridge).

Lemma ingested_refl b : ingested [] b b.
Proof. unfold ingested. rewrite app_nil_r. cbn. repeat split; lia. Qed.

Lemma ingested_trans ids1 ids2 b1 b2 b3 :
  ingested ids1 b1 b2 -> ingested ids2 b2 b3 -> ingested (ids1 ++ ids2) b1 b3.
Proof.
  intros (P1 & E1 & S1 & R1 & F1 & A1 & L1) (P2 & E2 & S2 & R2 & F2 & A2 & L2).
  unfold ingested. rewrite length_app.
  repeat apply conj; try congruence; try lia.
  by rewrite P2, P1, app_assoc.
Qed.

Lemma kept_true msg :
  kept msg = true ->
  exists c sc d, field "scope" msg.2 = Some (String c sc) /\ field "delta" msg.2 = Some d.
Proof.
  unfold kept. intros [Hs Hd]%andb_prop.
  destruct (field "scope" msg.2) as [[|c sc]|]; try discriminate Hs.
  apply bool_decide_eq_true in Hd as [d Hd]. eauto.
Qed.

Lemma kept_false msg :
  kept msg = false ->
  truthy (field "scope" msg.2) = false \/ field "delta" msg.2 = None.
Proof.
  unfold kept. intros [Hs | Hd]%andb_false_iff; [by left | right].
  apply bool_decide_eq_false in Hd.
  destruct (field "delta" msg.2); [| done]. destruct Hd. eauto.
Qed.

Lemma fold_message_ingests clock parse msg b :
  exists b',
    fold_message clock parse msg b = Returned tt b'
    /\ ingested (if kept msg then [msg.1] else []) b b'.
Proof.
  unfold fold_message. unfold bind at 1.
  destruct (kept msg) eqn:Hk.
  - destruct (kept_true msg Hk) as (c & sc & d & Hs & Hd).
    destruct (parseEvent_kept clock parse msg.2 b c sc d Hs Hd) as (md & t & E & Ht).
    rewrite E. eexists. split; [reflexivity|].
    unfold ingested, acknowledged, flushed, Aggregator.size. cbn.
    repeat apply conj; try reflexivity; try lia.
    + rewrite flat_map_app. destruct Ht as [-> | ->]; cbn; by rewrite app_nil_r.
    + rewrite flat_map_app. destruct Ht as [-> | ->]; cbn; by rewrite app_nil_r.
  - rewrite (parseEvent_dropped clock parse msg.2 b (kept_false msg Hk)).
    eexists. split; [reflexivity|].
    unfold ingested, acknowledged, flushed, Aggregator.size. cbn. rewrite app_nil_r.
    repeat apply conj; try reflexivity; try lia.
    + rewrite flat_map_app. cbn. by rewrite app_nil_r.
    + rewrite flat_map_app. cbn. by rewrite app_nil_r.
Qed.

Lemma fold_messages_ingest clock parse (msgs : list (string * list string)) b :
  exists b',
    for_each msgs (fold_message clock parse) b = Returned tt b'
    /\ ingested (filter (fun msg => kept msg = true) msgs).*1 b b'.
Proof.
  revert b. induction msgs as [|msg msgs IH]; intros b.
  - exists b. split; [reflexivity | apply ingested_refl].
  - destruct (fold_message_ingests clock parse msg b) as (b1 & E1 & I1).
    destruct (IH b1) as (b2 & E2 & I2).
    exists b2. cbn [for_each]. unfold bind. rewrite E1. split; [exact E2|].
    rewrite filter_cons. destruct (kept msg) eqn:Hk.
    + rewrite decide_True by done. rewrite fmap_cons.
      exact (ingested_trans _ _ _ _ _ I1 I2).
    + rewrite decide_False by (by intros ?). exact (ingested_trans _ _ _ _ _ I1 I2).
Qed.

Lemma fold_results_ingest clock parse results b :
  exists b',
    fold_results clock parse results b = Returned tt b'
    /\ ingested (kept_ids results) b b'.
Proof.
  unfold fold_results. revert b.
  induction results as [|stream results IH]; intros b.
  - exists b. split; [reflexivity | apply ingested_refl].
  - destruct (fold_messages_ingest clock parse stream.2 b) as (b1 & E1 & I1).
    destruct (IH b1) as (b2 & E2 & I2).
    exists b2. cbn [for_each]. unfold bind. rewrite E1. split; [exact E2|].
    exact (ingested_trans _ _ _ _ _ I1 I2).
Qed.

(** X3.  Folding what a read returned queues for acknowledgement exactly
    the ids of the entries the parser keeps, in the order of the read:
    the id of a malformed entry is never queued.  The event count of the
    aggregator and [eventsProcessed] grow by the number of kept entries;
    nothing is acknowledged, flushed or counted as an error. *)
Theorem read_queues_kept_ids (clock : Z) (parse : string -> option JS.json)
    (results : list (string * list (string * list string))) (b : Bridge) :
  exists b',
    fold_results clock parse results b = Returned tt b'
    /\ pendingIds b' = pendingIds b ++ kept_ids results
    /\ eventsProcessed (stats b')
       = (eventsProcessed (stats b) + length (kept_ids results))%nat
    /\ Aggregator.size (aggregator b')
       = (Aggregator.size (aggregator b) + length (kept_ids results))%nat
    /\ errorCount (stats b') = errorCount (stats b)
    /\ acknowledged (trace b') = acknowledged (trace b)
    /\ flushed (trace b') = flushed (trace b).
Proof.
  destruct (fold_results_ingest clock parse results b)
    as (b' & E & P & Ev & S & R & _ & A & L).
  exists b'. by repeat apply conj.
Qed.

End IngestFacts.

(* ================================================================== *)
(** ** Further properties of the flush *)
(* ================================================================== *)

Section FlushPaths.

Implicit Types (b : Bridge) (env : Env).

Lemma requeued_effects env batch failed b :
  acknowledged (trace (requeued env batch failed b)) = acknowledged (trace b)
  /\ flushed (trace (requeued env batch failed b)) = flushed (trace b)
  /\ pendingIds (requeued env batch failed b) = pendingIds b
  /\ stats (requeued env batch failed b) = stats b.
Proof.
  unfold requeued. destruct (0 <? size failed)%nat; [|done].
  cbn. rewrite acknowledged_app, flushed_app. cbn. by rewrite !app_nil_r.
Qed.

Lemma accounted_effects env batch b :
  acknowledged (trace (accounted env batch b)) = acknowledged (trace b)
  /\ flushed (trace (accounted env batch b)) = flushed (trace b).
Proof.
  unfold accounted. cbn. rewrite acknowledged_app, flushed_app. cbn.
  by rewrite !app_nil_r.
Qed.

Lemma caught_effects env batch ids err b :
  acknowledged (trace (caught env batch ids err b)) = acknowledged (trace b)
  /\ flushed (trace (caught env batch ids err b)) = flushed (trace b).
Proof.
  unfold caught. cbn. rewrite acknowledged_app, flushed_app. cbn.
  by rewrite !app_nil_r.
Qed.

Lemma snapshot_effects b :
  acknowledged (trace (snapshot b)) = acknowledged (trace b)
  /\ flushed (trace (snapshot b))
     = flushed (trace b) ++ [Aggregator.deltas (aggregator b)].
Proof.
  unfold snapshot. cbn. rewrite acknowledged_app, flushed_app. cbn.
  by rewrite app_nil_r.
Qed.

(** The state when the answer of the provider has been handled. *)
Lemma held_effects env b failed :
  let held := requeued env (Aggregator.deltas (aggregator b)) failed
                (resumed (during_flush env) (JSON_parse env) (snapshot b)) in
  same_settings (snapshot b) held
  /\ acknowledged (trace held) = acknowledged (trace b)
  /\ flushed (trace held) = flushed (trace b) ++ [Aggregator.deltas (aggregator b)].
Proof.
  intros held.
  pose proof (proj2 (resumed_spec (during_flush env) (JSON_parse env) (snapshot b)))
    as Hmid.
  destruct (requeued_effects env (Aggregator.deltas (aggregator b)) failed
              (resumed (during_flush env) (JSON_parse env) (snapshot b)))
    as (Ha & Hf & _).
  destruct (snapshot_effects b) as (Hsa & Hsf).
  split; [|split].
  - eapply same_settings_trans; [apply resumed_settings | apply requeued_settings].
  - unfold held. by rewrite Ha, (read_activity_acknowledged _ _ Hmid).
  - unfold held. by rewrite Hf, (read_activity_flushed _ _ Hmid).
Qed.

Lemma doFlush_effects env b :
  exists b',
    doFlush env b = Returned tt b'
    /\ same_settings (snapshot b) b'
    /\ acknowledged (trace b')
       = acknowledged (trace b)
         ++ match provider_flush env with
            | Resolves _ => pendingIds b
            | Rejects _ => []
            end
    /\ flushed (trace b') = flushed (trace b) ++ [Aggregator.deltas (aggregator b)].
Proof.
  destruct (provider_flush env) as [result|err] eqn:Hflush.
  - destruct (held_effects env b (reported result)) as (Hs & Ha & Hf).
    destruct (acked_spec env (pendingIds b)
                (requeued env (Aggregator.deltas (aggregator b)) (reported result)
                   (resumed (during_flush env) (JSON_parse env) (snapshot b))))
      as (_ & _ & _ & Hack & Hfl & _).
    destruct (redis_xack env) as [[]|err] eqn:Hxack;
      [| destruct (decide (pendingIds b = [])) as [Hids | Hids]].
    + eexists. split; [apply doFlush_resolved with (result := result); auto|].
      destruct (accounted_effects env (Aggregator.deltas (aggregator b))
                  (acked env (pendingIds b)
                     (requeued env (Aggregator.deltas (aggregator b)) (reported result)
                        (resumed (during_flush env) (JSON_parse env) (snapshot b)))))
        as (-> & ->).
      split; [|split]; [| by rewrite Hack, Ha | by rewrite Hfl, Hf].
      eapply same_settings_trans; [exact Hs|].
      eapply same_settings_trans; [apply acked_settings | apply accounted_settings].
    + eexists. split; [apply doFlush_resolved with (result := result); auto|].
      destruct (accounted_effects env (Aggregator.deltas (aggregator b))
                  (acked env (pendingIds b)
                     (requeued env (Aggregator.deltas (aggregator b)) (reported result)
                        (resumed (during_flush env) (JSON_parse env) (snapshot b)))))
        as (-> & ->).
      split; [|split]; [| by rewrite Hack, Ha | by rewrite Hfl, Hf].
      eapply same_settings_trans; [exact Hs|].
      eapply same_settings_trans; [apply acked_settings | apply accounted_settings].
    + eexists. split; [by apply doFlush_xack_rejected with (err := err)|].
      destruct (caught_effects env (Aggregator.deltas (aggregator b)) (pendingIds b) err
                  (acked env (pendingIds b)
                     (requeued env (Aggregator.deltas (aggregator b)) (reported result)
                        (resumed (during_flush env) (JSON_parse env) (snapshot b)))))
        as (-> & ->).
      split; [|split]; [| by rewrite Hack, Ha | by rewrite Hfl, Hf].
      eapply same_settings_trans; [exact Hs|].
      eapply same_settings_trans; [apply acked_settings | apply caught_settings].
  - eexists. split; [by apply doFlush_rejected|].
    pose proof (proj2 (resumed_spec (during_flush env) (JSON_parse env) (snapshot b)))
      as Hmid.
    destruct (caught_effects env (Aggregator.deltas (aggregator b)) (pendingIds b) err
                (resumed (during_flush env) (JSON_parse env) (snapshot b)))
      as (-> & ->).
    destruct (snapshot_effects b) as (Hsa & Hsf).
    split; [|split].
    + eapply same_settings_trans; [apply resumed_settings | apply caught_settings].
    + by rewrite (read_activity_acknowledged _ _ Hmid), Hsa, app_nil_r.
    + by rewrite (read_activity_flushed _ _ Hmid), Hsf.
Qed.

(** X4.  Acknowledge after persist: [doFlush] calls [provider.flush]
    exactly once, with the drained batch, before anything else it does;
    it hands the snapshotted ids to [xack] when that call resolved, and
    acknowledges nothing when it threw. *)
Theorem doFlush_acknowledges_after_provider (env : Env) (b : Bridge) :
  let batch := Aggregator.deltas (aggregator b) in
  exists b' t,
    doFlush env b = Returned tt b'
    /\ trace b' = trace b ++ ProviderFlush batch :: t
    /\ flushed t = []
    /\ acknowledged t
       = match provider_flush env with
         | Resolves _ => pendingIds b
         | Rejects _ => []
         end.
Proof.
  intros batch.
  destruct (doFlush_effects env b) as (b' & E & (_ & _ & _ & _ & _ & t & Ht) & Ha & Hf).
  exists b', t. split; [exact E|].
  assert (trace b' = trace b ++ ProviderFlush batch :: t) as Htrace.
  { rewrite Ht. unfold snapshot. cbn. by rewrite <- app_assoc. }
  split; [exact Htrace|].
  rewrite Htrace in Ha, Hf.
  change (ProviderFlush batch :: t) with ([ProviderFlush batch] ++ t) in Ha, Hf.
  rewrite !acknowledged_app in Ha. rewrite !flushed_app in Hf.
  cbn in Ha, Hf. split.
  - apply app_inv_head in Hf.
    change (batch :: flushed t) with ([batch] ++ flushed t) in Hf.
    by injection Hf.
  - by apply app_inv_head in Ha.
Qed.


(** The path of a flush the provider took whole. *)
Lemma success_path (env : Env) (b : Bridge)
    (result : option FlushResult) :
  provider_flush env = Resolves result ->
  reported result = ∅ ->
  pendingIds b = [] \/ redis_xack env = Resolves tt ->
  let batch := Aggregator.deltas (aggregator b) in
  let mid := resumed (during_flush env) (JSON_parse env) (snapshot b) in
  exists b',
    doFlush env b = Returned tt b'
    /\ (exists later, aggregator b' = Aggregator.add_all later (aggregator mid))
    /\ (during_flush env = [] -> during_xack env = [] ->
        aggregator b' = Aggregator.new
        /\ pendingIds b' = []
        /\ errorCount (stats b') = errorCount (stats b)
        /\ emitted (trace b')
           = emitted (trace b) ++ [Flush (size batch) (S (flushCount (stats b)))])
    /\ acknowledged (trace b') = acknowledged (trace b) ++ pendingIds b
    /\ flushCount (stats b') = S (flushCount (stats b))
    /\ lastFlushAt (stats b') = Some (now env)
    /\ last (trace b') = Some (Emit (Flush (size batch) (S (flushCount (stats b))))).
Proof.
  intros Hflush Hnone Hxack batch mid.
  pose proof (proj2 (resumed_spec (during_flush env) (JSON_parse env) (snapshot b)))
    as Hmid. fold mid in Hmid.
  assert (requeued env batch (reported result) mid = mid) as Hheld.
  { unfold requeued. rewrite Hnone. by rewrite map_size_empty. }
  destruct (acked_spec env (pendingIds b) mid)
    as ((later & Hlater) & _ & _ & Hack & _ & Hfc & _ & Hquiet).
  eexists. split; [by apply doFlush_resolved with (result := result)|].
  fold batch mid. rewrite Hheld.
  repeat apply conj.
  - exists later. exact Hlater.
  - intros Hf Hx. destruct (Hquiet Hx) as (Hagg & Hp & Hst).
    assert (mid = snapshot b) as Hsnap by (unfold mid; by rewrite Hf, resumed_nil).
    assert (trace (acked env (pendingIds b) mid)
            = trace b ++ ProviderFlush batch
                :: match pendingIds b with [] => [] | _ => [XAck (pendingIds b)] end)
      as Htr.
    { unfold acked. rewrite Hx, Hsnap.
      destruct (pendingIds b); cbn; [done|]. by rewrite <- app_assoc. }
    unfold accounted. cbn [aggregator pendingIds stats trace with_trace with_stats].
    rewrite Hagg, Hp, Hst.
    repeat apply conj; try (rewrite Hsnap; reflexivity).
    rewrite emitted_app, Htr, emitted_app, Hsnap.
    cbn. destruct (pendingIds b); cbn; by rewrite app_nil_r.
  - destruct (accounted_effects env batch (acked env (pendingIds b) mid)) as (-> & _).
    rewrite Hack, (read_activity_acknowledged _ _ Hmid).
    by rewrite (proj1 (snapshot_effects b)).
  - unfold accounted. cbn. by rewrite Hfc, (ra_flushCount _ _ Hmid).
  - reflexivity.
  - unfold accounted. cbn. by rewrite last_snoc, Hfc, (ra_flushCount _ _ Hmid).
Qed.

(** X5.  Full success: when the provider reports no failed scope (no
    result, no [failed] map or an empty one) and the acknowledgement
    succeeds, nothing of the batch goes back to the aggregator and no
    warning is emitted; the ids are acknowledged, the flush is counted,
    [lastFlushAt] is the clock and a [flush] event with the number of
    scopes and the flush number ends the flush. *)
Theorem successful_flush_leaves_nothing (env : Env) (b : Bridge)
    (result : option FlushResult) :
  provider_flush env = Resolves result ->
  reported result = ∅ ->
  pendingIds b = [] \/ redis_xack env = Resolves tt ->
  let batch := Aggregator.deltas (aggregator b) in
  let mid := resumed (during_flush env) (JSON_parse env) (snapshot b) in
  exists b',
    doFlush env b = Returned tt b'
    /\ (exists later, aggregator b' = Aggregator.add_all later (aggregator mid))
    /\ (during_flush env = [] -> during_xack env = [] ->
        aggregator b' = Aggregator.new
        /\ pendingIds b' = []
        /\ errorCount (stats b') = errorCount (stats b)
        /\ emitted (trace b')
           = emitted (trace b) ++ [Flush (size batch) (S (flushCount (stats b)))])
    /\ acknowledged (trace b') = acknowledged (trace b) ++ pendingIds b
    /\ flushCount (stats b') = S (flushCount (stats b))
    /\ lastFlushAt (stats b') = Some (now env)
    /\ last (trace b') = Some (Emit (Flush (size batch) (S (flushCount (stats b))))).
Proof. apply success_path. Qed.

Lemma successful_flush_leaves_nothing_witness :
  provider_flush healthy = Resolves None
  /\ reported None = ∅
  /\ (pendingIds folded_a_b = [] \/ redis_xack healthy = Resolves tt)
  /\ exists b',
       doFlush healthy folded_a_b = Returned tt b'
       /\ aggregator b' = Aggregator.new
       /\ pendingIds b' = []
       /\ acknowledged (trace b') = ["4-0"; "5-0"]%string
       /\ flushCount (stats b') = 1%nat.
Proof.
  split; [reflexivity|]. split; [reflexivity|]. split; [right; reflexivity|].
  destruct (successful_flush_leaves_nothing healthy folded_a_b None
              eq_refl eq_refl (or_intror eq_refl))
    as (b' & E & _ & Hquiet & Hack & Hfc & _).
  destruct (Hquiet eq_refl eq_refl) as (Hagg & Hids & _).
  exists b'. split; [exact E|]. split; [exact Hagg|]. split; [exact Hids|].
  split; [rewrite Hack; reflexivity | rewrite Hfc; reflexivity].
Defined.



Lemma consistent_add (e : CounterEvent) (a : Aggregator.t) :
  consistent (Aggregator.add e a).
Proof.
  unfold consistent, Aggregator.add, Aggregator.size. cbn. split; [discriminate|].
  intros H. by apply insert_non_empty in H.
Qed.

Lemma consistent_add_all (events : list CounterEvent) (a : Aggregator.t) :
  consistent a -> consistent (Aggregator.add_all events a).
Proof.
  revert a. induction events as [|e events IH]; intros a Ha; [done|].
  change (Aggregator.add_all (e :: events) a)
    with (Aggregator.add_all events (Aggregator.add e a)).
  apply IH, consistent_add.
Qed.

(** X7.  The guard of [flush]: with a flush in flight or an empty
    aggregator it does nothing at all (no provider call, no statistics,
    no event); otherwise it hands the provider exactly one batch, which
    is not empty, and in every case it leaves [this.flushing] as it
    found it. *)
Theorem flush_is_guarded (env : Env) (b : Bridge) :
  consistent (aggregator b) ->
  exists b',
    flush env b = Returned tt b'
    /\ flushing b' = flushing b
    /\ (flushing b = true \/ Aggregator.size (aggregator b) = 0%nat -> b' = b)
    /\ (flushing b = false -> Aggregator.size (aggregator b) <> 0%nat ->
        Aggregator.deltas (aggregator b) <> ∅
        /\ flushed (trace b')
           = flushed (trace b) ++ [Aggregator.deltas (aggregator b)]).
Proof.
  intros Hcons. unfold flush. unfold bind at 1. unfold get at 1.
  destruct (flushing b) eqn:Hbusy.
  { exists b. repeat apply conj; try done. }
  unfold bind at 1. unfold get at 1.
  destruct (Aggregator.size (aggregator b) =? 0)%nat eqn:Hsize.
  { apply Nat.eqb_eq in Hsize. exists b. repeat apply conj; try done. }
  apply Nat.eqb_neq in Hsize.
  unfold bind at 1. unfold modify at 1. unfold try_finally.
  destruct (doFlush_effects env (with_flushing true b))
    as (b' & E & (_ & Hfl & _) & _ & Hf).
  rewrite E. eexists. split; [reflexivity|].
  cbn in Hf. cbn [flushing with_flushing trace].
  repeat apply conj; try done.
  - intros [Hb | Hz]; [discriminate | contradiction].
  - intros _ _. split; [|exact Hf].
    intros Hempty. apply Hsize, Hcons, Hempty.
Qed.

Lemma flush_is_guarded_witness :
  consistent (aggregator folded_a_b)
  /\ exists b',
       flush healthy folded_a_b = Returned tt b'
       /\ flushing b' = false
       /\ flushed (trace b') = [batch_a_b].
Proof.
  assert (consistent (aggregator folded_a_b)) as Hc.
  { change (aggregator folded_a_b)
      with (Aggregator.add_all [{| scope := "a"; delta := JS.Int 1; metadata := None;
                                   timestamp := Some (JS.Int 1000) |};
                                {| scope := "b"; delta := JS.Int 2; metadata := None;
                                   timestamp := Some (JS.Int 1000) |}]
              Aggregator.new).
    apply consistent_add_all. split; reflexivity. }
  split; [exact Hc|].
  destruct (flush_is_guarded healthy folded_a_b Hc) as (b' & E & Hfl & _ & Hgo).
  exists b'. split; [exact E|]. split; [exact Hfl|].
  destruct (Hgo eq_refl) as (_ & Hf); [discriminate|].
  rewrite Hf. reflexivity.
Defined.



End FlushPaths.

(* ================================================================== *)
(** ** Further properties of the recovery, the read loop and the timer *)
(* ================================================================== *)

Section LoopPaths.

Implicit Types (b : Bridge) (env : Env).

Lemma fold_results_full clock parse results b :
  exists b1,
    fold_results clock parse results b = Returned tt b1
    /\ ingested (kept_ids results) b b1
    /\ read_activity b b1.
Proof.
  destruct (fold_results_ingest clock parse results b) as (b1 & E & I).
  destruct (steady_fold_results clock parse results b) as ([] & b1' & E' & R).
  rewrite E in E'. injection E' as <-. eauto.
Qed.

(** [flush] with the mutex free and something to flush. *)
Lemma flush_runs env b :
  flushing b = false ->
  Aggregator.size (aggregator b) <> 0%nat ->
  exists b1,
    doFlush env (with_flushing true b) = Returned tt b1
    /\ flush env b = Returned tt (with_flushing false b1).
Proof.
  intros Hbusy Hsize.
  destruct (doFlush_returns env (with_flushing true b)) as (b1 & E).
  exists b1. split; [exact E|].
  unfold flush. unfold bind at 1. unfold get at 1. rewrite Hbusy.
  unfold bind at 1. unfold get at 1.
  apply Nat.eqb_neq in Hsize. rewrite Hsize.
  unfold bind at 1. unfold modify at 1. unfold try_finally. by rewrite E.
Qed.

Lemma flush_idle env b :
  Aggregator.size (aggregator b) = 0%nat -> flush env b = Returned tt b.
Proof.
  intros Hsize. unfold flush. unfold bind at 1. unfold get at 1.
  destruct (flushing b); [done|].
  unfold bind at 1. unfold get at 1. by rewrite Hsize.
Qed.

(** X9.  The recovery: with nothing else running, a healthy provider and
    log, every entry kept from the pending read is flushed in one
    [provider.flush] call, together with what the aggregator held, and all
    the ids are acknowledged; the [recovery] event carries the number of
    events.  When the read brings nothing to flush the provider is not
    called. *)
Theorem recovery_flushes_what_it_read (env : Env) (b : Bridge)
    (results : list (string * list (string * list string)))
    (result : option FlushResult) :
  flushing b = false ->
  redis_xreadgroup env = Resolves (Some results) ->
  provider_flush env = Resolves result ->
  reported result = ∅ ->
  redis_xack env = Resolves tt ->
  during_flush env = [] ->
  during_xack env = [] ->
  let folded :=
    state_of (fold_results (now env) (JSON_parse env) results
                (with_trace (trace b ++ [XReadGroup "0" None]) b)) in
  exists b',
    recoverPending env b = Returned tt b'
    /\ Aggregator.size (aggregator folded)
       = (Aggregator.size (aggregator b) + length (kept_ids results))%nat
    /\ (Aggregator.size (aggregator folded) = 0%nat -> b' = folded)
    /\ (Aggregator.size (aggregator folded) <> 0%nat ->
        aggregator b' = Aggregator.new
        /\ pendingIds b' = []
        /\ acknowledged (trace b')
           = acknowledged (trace b) ++ pendingIds b ++ kept_ids results
        /\ flushed (trace b')
           = flushed (trace b) ++ [Aggregator.deltas (aggregator folded)]
        /\ emitted (trace b')
           = emitted (trace folded)
             ++ [Recovery (Aggregator.size (aggregator folded));
                 Flush (Aggregator.scopeCount (aggregator folded))
                       (S (flushCount (stats b)))]).
Proof.
  intros Hbusy Hread Hflush Hnone Hxack Hf Hx folded.
  destruct (fold_results_full (now env) (JSON_parse env) results
              (with_trace (trace b ++ [XReadGroup "0" None]) b))
    as (b1 & E1 & (P1 & _ & S1 & _ & F1 & A1 & L1) & R1).
  assert (folded = b1) as Hfolded by (unfold folded; by rewrite E1).
  cbn in P1, S1, F1, A1, L1.
  rewrite acknowledged_app in A1. rewrite flushed_app in L1. cbn in A1, L1.
  rewrite app_nil_r in A1, L1.
  assert (recoverPending env b
          = (let* n := get (fun b => Aggregator.size (aggregator b)) in
             when (0 <? n)%nat (emit (Recovery n) >> flush env)) b1) as Hrec.
  { unfold recoverPending, try_catch. unfold bind at 1.
    rewrite Hread, await_resolves, resumed_nil.
    unfold bind at 1. rewrite E1.
    destruct ((let* n := get (fun b => Aggregator.size (aggregator b)) in
               when (0 <? n)%nat (emit (Recovery n) >> flush env)) b1) eqn:Hk;
      [reflexivity|].
    exfalso. revert Hk. unfold bind at 1. unfold get at 1.
    destruct (0 <? Aggregator.size (aggregator b1))%nat; [|discriminate].
    unfold when, bind, emit, record, modify.
    match goal with |- context [flush env ?x] =>
      destruct (flush_returns env x) as (? & -> & _) end. discriminate. }
  rewrite Hfolded.
  destruct (decide (Aggregator.size (aggregator b1) = 0%nat)) as [Hz | Hnz].
  - exists b1. split; [|split; [exact S1|split; [done|done]]].
    rewrite Hrec. unfold bind, get. by rewrite Hz.
  - set (b2 := with_trace (trace b1 ++ [Emit (Recovery (Aggregator.size (aggregator b1)))]) b1).
    assert (flushing b2 = false) as Hb2.
    { cbn. rewrite (ra_flushing _ _ R1). exact Hbusy. }
    destruct (flush_runs env b2 Hb2 Hnz) as (b3 & E3 & Efl).
    destruct (success_path env (with_flushing true b2) result Hflush Hnone
                (or_intror Hxack))
      as (b3' & E3' & _ & Hquiet & Hack & _).
    rewrite E3 in E3'. injection E3' as <-.
    destruct (Hquiet Hf Hx) as (Hagg & Hp & _ & Hem).
    destruct (doFlush_effects env (with_flushing true b2)) as (b3' & E3' & _ & _ & Hfl).
    rewrite E3 in E3'. injection E3' as <-.
    exists (with_flushing false b3). split.
    { rewrite Hrec. unfold bind at 1. unfold get at 1.
      assert ((0 <? Aggregator.size (aggregator b1))%nat = true) as ->
        by (apply Nat.ltb_lt; lia).
      unfold when, bind at 1. unfold emit, record, modify. exact Efl. }
    split; [exact S1|]. split; [done|]. intros _.
    cbn [aggregator pendingIds trace with_flushing].
    cbn in Hack, Hfl, Hem.
    rewrite acknowledged_app in Hack. rewrite flushed_app in Hfl.
    rewrite emitted_app in Hem. cbn in Hack, Hfl, Hem.
    rewrite app_nil_r in Hack, Hfl.
    repeat apply conj.
    + exact Hagg.
    + exact Hp.
    + by rewrite Hack, A1, P1.
    + by rewrite Hfl, L1.
    + rewrite Hem, F1, <- app_assoc. reflexivity.
Qed.

Lemma recovery_flushes_what_it_read_witness :
  flushing test_bridge = false
  /\ exists b',
       recoverPending recovery_world test_bridge = Returned tt b'
       /\ aggregator b' = Aggregator.new
       /\ acknowledged (trace b') = ["1-0"]%string
       /\ flushed (trace b') = [{[ "x"%string := JS.Int 3 ]}].
Proof.
  split; [reflexivity|].
  destruct (recovery_flushes_what_it_read recovery_world test_bridge
              [("test:stream",
                [("1-0", ["scope"; "x"; "delta"; "3"; "timestamp"; "1000"])])]%string
              None eq_refl eq_refl eq_refl eq_refl eq_refl eq_refl eq_refl)
    as (b' & E & _ & _ & Hgo).
  destruct Hgo as (Hagg & _ & Hack & Hfl & _); [discriminate|].
  exists b'. split; [exact E|]. split; [exact Hagg|].
  split; [rewrite Hack; reflexivity | rewrite Hfl; reflexivity].
Defined.

(** *** What a flush does to the timers, and [flush] as a whole *)

Lemma armed_app t1 t2 : armed (t1 ++ t2) = armed t1 ++ armed t2.
Proof. unfold armed. apply flat_map_app. Qed.

Lemma read_effects_arm_nothing t : Forall read_effect t -> armed t = [].
Proof.
  induction 1 as [|e t He _ IH]; [done|].
  unfold armed in *. cbn [flat_map]. rewrite IH, app_nil_r.
  destruct e as [[]| | | | | | | | |]; try done.
Qed.

Lemma read_activity_armed b b' :
  read_activity b b' -> armed (trace b') = armed (trace b).
Proof.
  intros [_ _ (t & -> & Ht) _ _ _ _ _ _ _ _ _].
  by rewrite armed_app, (read_effects_arm_nothing t Ht), app_nil_r.
Qed.

Lemma flush_effects_arm_nothing t : Forall flush_effect t -> armed t = [].
Proof.
  induction 1 as [|e t He _ IH]; [done|].
  unfold armed in *. cbn [flat_map]. rewrite IH, app_nil_r.
  destruct e as [[]| | | | | | | | |]; try done.
Qed.

Lemma read_effect_flush_effect e : read_effect e -> flush_effect e.
Proof. destruct e as [[| | | |? []|]| | | | | | | | |]; done. Qed.

Lemma grows_refl b : grows b b.
Proof. exists []. by rewrite app_nil_r. Qed.

Lemma grows_trans b1 b2 b3 : grows b1 b2 -> grows b2 b3 -> grows b1 b3.
Proof.
  intros (t1 & E1 & H1) (t2 & E2 & H2). exists (t1 ++ t2).
  rewrite E2, E1, <- app_assoc. split; [done|]. by apply Forall_app.
Qed.

Lemma read_activity_grows b b' : read_activity b b' -> grows b b'.
Proof.
  intros [_ _ (t & E & Ht) _ _ _ _ _ _ _ _ _]. exists t. split; [done|].
  eapply Forall_impl; [exact Ht|]. apply read_effect_flush_effect.
Qed.

Lemma resumed_grows rounds parse b : grows b (resumed rounds parse b).
Proof. apply read_activity_grows, resumed_spec. Qed.

Lemma snapshot_grows b : grows b (snapshot b).
Proof. exists [ProviderFlush (Aggregator.deltas (aggregator b))]. split; [done|]. by constructor. Qed.

Lemma requeued_grows env batch failed b : grows b (requeued env batch failed b).
Proof.
  unfold requeued. destruct (0 <? size failed)%nat; [|apply grows_refl].
  eexists [_]. split; [reflexivity|]. by constructor.
Qed.

Lemma acked_grows env ids b : grows b (acked env ids b).
Proof.
  unfold acked. destruct (0 <? length ids)%nat; [|apply grows_refl].
  eapply grows_trans; [|apply resumed_grows].
  exists [XAck ids]. split; [done|]. by constructor.
Qed.

Lemma accounted_grows env batch b : grows b (accounted env batch b).
Proof. unfold accounted. eexists [_]. split; [reflexivity|]. by constructor. Qed.

Lemma caught_grows env batch ids err b : grows b (caught env batch ids err b).
Proof. unfold caught. eexists [_]. split; [reflexivity|]. by constructor. Qed.

(** A flush makes no call but [provider.flush] and [xack], and emits
    only [flush], [warn] and [error]. *)
Lemma doFlush_grows env b :
  exists b', doFlush env b = Returned tt b' /\ grows b b'.
Proof.
  assert (forall failed,
            grows b (acked env (pendingIds b)
                       (requeued env (Aggregator.deltas (aggregator b)) failed
                          (resumed (during_flush env) (JSON_parse env) (snapshot b)))))
    as Hheld.
  { intros failed.
    eapply grows_trans; [apply snapshot_grows|].
    eapply grows_trans; [apply resumed_grows|].
    eapply grows_trans; [apply requeued_grows | apply acked_grows]. }
  destruct (provider_flush env) as [result|err] eqn:Hflush.
  - destruct (redis_xack env) as [[]|err] eqn:Hxack;
      [| destruct (decide (pendingIds b = [])) as [Hids | Hids]].
    + eexists. split; [apply doFlush_resolved with (result := result); auto|].
      eapply grows_trans; [apply Hheld | apply accounted_grows].
    + eexists. split; [apply doFlush_resolved with (result := result); auto|].
      eapply grows_trans; [apply Hheld | apply accounted_grows].
    + eexists. split; [by apply doFlush_xack_rejected with (err := err)|].
      eapply grows_trans; [apply Hheld | apply caught_grows].
  - eexists. split; [by apply doFlush_rejected|].
    eapply grows_trans; [apply snapshot_grows|].
    eapply grows_trans; [apply resumed_grows | apply caught_grows].
Qed.

Lemma grows_armed b b' : grows b b' -> armed (trace b') = armed (trace b).
Proof.
  intros (t & -> & Ht).
  by rewrite armed_app, (flush_effects_arm_nothing t Ht), app_nil_r.
Qed.

Lemma doFlush_arms_nothing env b :
  exists b', doFlush env b = Returned tt b' /\ armed (trace b') = armed (trace b).
Proof.
  destruct (doFlush_grows env b) as (b' & E & Hg).
  exists b'. split; [exact E | by apply grows_armed].
Qed.

(** [flush] as a whole: it runs [doFlush] exactly when no flush is in
    flight and the aggregator counts an event; it then calls the provider
    once with the whole aggregation.  It leaves the flags and the timers
    as they are. *)
Lemma flush_spec env b :
  exists b',
    flush env b = Returned tt b'
    /\ same_settings b b'
    /\ flushed (trace b')
       = flushed (trace b)
         ++ (if negb (flushing b) && (0 <? Aggregator.size (aggregator b))%nat
             then [Aggregator.deltas (aggregator b)] else [])
    /\ armed (trace b') = armed (trace b)
    /\ (flushing b = true \/ Aggregator.size (aggregator b) = 0%nat -> b' = b).
Proof.
  destruct (flushing b) eqn:Hbusy.
  { exists b. unfold flush, bind, get. rewrite Hbusy. cbn.
    split; [done|]. split; [apply same_settings_refl|].
    by rewrite app_nil_r. }
  destruct (decide (Aggregator.size (aggregator b) = 0%nat)) as [Hz | Hnz].
  { exists b. rewrite (flush_idle env b Hz), Hz. cbn.
    split; [done|]. split; [apply same_settings_refl|].
    by rewrite app_nil_r. }
  destruct (flush_runs env b Hbusy Hnz) as (b1 & E & ->).
  destruct (doFlush_effects env (with_flushing true b)) as (b1' & E' & Hs & _ & Hfl).
  rewrite E in E'. injection E' as <-.
  destruct (doFlush_arms_nothing env (with_flushing true b)) as (b1' & E' & Harm).
  rewrite E in E'. injection E' as <-.
  exists (with_flushing false b1). split; [done|].
  destruct Hs as (Hr & _ & Ht & Hw & Hm & t & Htr).
  cbn in Hr, Ht, Hw, Hm, Htr, Hfl, Harm.
  assert ((0 <? Aggregator.size (aggregator b))%nat = true) as ->
    by (apply Nat.ltb_lt; lia).
  cbn [negb andb].
  split; [|split; [exact Hfl|split; [exact Harm|]]].
  - unfold same_settings. cbn. rewrite Hr, Ht, Hw, Hm, Hbusy.
    repeat (split; [done|]).
    exists (ProviderFlush (Aggregator.deltas (aggregator b)) :: t).
    rewrite Htr, <- app_assoc. reflexivity.
  - intros [? | ?]; [discriminate | contradiction].
Qed.

Lemma readLoop_head_runs b :
  readLoop_head b
  = Returned tt (if running b
                 then with_trace (trace b ++ [XReadGroup ">" (Some (windowMs b))]) b
                 else b).
Proof. unfold readLoop_head, bind, get, when. by destruct (running b). Qed.

Lemma scheduleFlush_runs b :
  scheduleFlush b
  = Returned tt (if running b
                 then with_flushTimer true
                        (with_trace (trace b ++ [SetTimeout (windowMs b)]) b)
                 else b).
Proof. unfold scheduleFlush, bind, get. by destruct (running b). Qed.

(** X10.  One pass of the read loop, no flush being in flight, on a read
    that brought entries: the provider is called exactly when the
    aggregator, after the fold, has reached [maxBatchSize] and holds an
    event; below the limit the events and their ids stay in memory and
    nothing is acknowledged.  A running loop then issues its next
    blocking read. *)
Theorem read_pass_flushes_at_limit (env : Env) (b : Bridge)
    (results : list (string * list (string * list string))) :
  flushing b = false ->
  redis_xreadgroup env = Resolves (Some results) ->
  let folded := state_of (fold_results (now env) (JSON_parse env) results b) in
  let n := Aggregator.size (aggregator folded) in
  exists b',
    readLoop_pass env b = Returned tt b'
    /\ n = (Aggregator.size (aggregator b) + length (kept_ids results))%nat
    /\ flushed (trace b')
       = flushed (trace b)
         ++ (if (maxBatchSize b <=? n)%nat && (0 <? n)%nat
             then [Aggregator.deltas (aggregator folded)] else [])
    /\ ((n < maxBatchSize b)%nat ->
        aggregator b' = aggregator folded
        /\ pendingIds b' = pendingIds b ++ kept_ids results
        /\ acknowledged (trace b') = acknowledged (trace b))
    /\ (running b = true ->
        last (trace b') = Some (XReadGroup ">" (Some (windowMs b)))).
Proof.
  intros Hbusy Hread folded n.
  destruct (fold_results_full (now env) (JSON_parse env) results b)
    as (b1 & E1 & (P1 & _ & S1 & _ & _ & A1 & L1) & R1).
  assert (folded = b1) as Hfolded by (unfold folded; by rewrite E1).
  unfold n. rewrite Hfolded. clear n folded Hfolded.
  destruct (flush_spec env b1) as (b2 & E2 & Hs2 & Hfl2 & _ & Hskip).
  rewrite (ra_flushing _ _ R1), Hbusy, L1 in Hfl2. cbn [negb andb] in Hfl2.
  destruct Hs2 as (Hr2 & _ & _ & Hw2 & _).
  set (b1' := if (maxBatchSize b <=? Aggregator.size (aggregator b1))%nat
              then b2 else b1).
  assert (readLoop_pass env b = readLoop_head b1') as Hpass.
  { unfold readLoop_pass. unfold bind at 1. unfold try_catch.
    unfold bind at 1. rewrite Hread. unfold ret at 1.
    unfold bind at 1. rewrite E1.
    unfold bind at 1. unfold get at 1. unfold bind at 1. unfold get at 1.
    rewrite (ra_maxBatchSize _ _ R1). unfold when, b1'.
    destruct (maxBatchSize b <=? Aggregator.size (aggregator b1))%nat;
      [by rewrite E2 | done]. }
  rewrite Hpass, readLoop_head_runs.
  assert (running b1' = running b /\ windowMs b1' = windowMs b) as (Hr & Hw).
  { unfold b1'.
    destruct (maxBatchSize b <=? Aggregator.size (aggregator b1))%nat.
    - by rewrite Hr2, Hw2, (ra_running _ _ R1), (ra_windowMs _ _ R1).
    - by rewrite (ra_running _ _ R1), (ra_windowMs _ _ R1). }
  eexists. split; [reflexivity|]. split; [exact S1|].
  rewrite Hr, Hw.
  assert (forall x : Bridge,
            flushed (trace (if running b
                            then with_trace (trace x ++ [XReadGroup ">" (Some (windowMs b))]) x
                            else x)) = flushed (trace x)
            /\ acknowledged (trace (if running b
                            then with_trace (trace x ++ [XReadGroup ">" (Some (windowMs b))]) x
                            else x)) = acknowledged (trace x)
            /\ aggregator (if running b
                            then with_trace (trace x ++ [XReadGroup ">" (Some (windowMs b))]) x
                            else x) = aggregator x
            /\ pendingIds (if running b
                            then with_trace (trace x ++ [XReadGroup ">" (Some (windowMs b))]) x
                            else x) = pendingIds x) as Hhead.
  { intros x. destruct (running b); [|done]. cbn.
    rewrite flushed_app, acknowledged_app. cbn. by rewrite !app_nil_r. }
  destruct (Hhead b1') as (-> & -> & -> & ->).
  split; [|split].
  - unfold b1'.
    destruct (maxBatchSize b <=? Aggregator.size (aggregator b1))%nat; cbn [andb].
    + exact Hfl2.
    + by rewrite L1, app_nil_r.
  - intros Hlt. unfold b1'.
    assert ((maxBatchSize b <=? Aggregator.size (aggregator b1))%nat = false) as ->
      by (apply Nat.leb_gt; lia).
    done.
  - intros ->. cbn. apply last_snoc.
Qed.

Lemma read_pass_flushes_at_limit_witness :
  exists b',
    readLoop_pass
      (world None (Resolves tt) (Resolves (Some two_entries)) (Resolves None)
         (Resolves tt))
      (CounterBridge.new "test:stream" "test-group" 500 2) = Returned tt b'
    /\ flushed (trace b') = [batch_a_b].
Proof.
  destruct (read_pass_flushes_at_limit
              (world None (Resolves tt) (Resolves (Some two_entries)) (Resolves None)
                 (Resolves tt))
              (CounterBridge.new "test:stream" "test-group" 500 2)
              two_entries eq_refl eq_refl)
    as (b' & E & _ & Hfl & _).
  exists b'. split; [exact E|]. rewrite Hfl. vm_compute. reflexivity.
Defined.



(** X12.  The callback of the flush timer, no flush being in flight: it
    flushes when the aggregator counts an event, and it arms the next
    timer, with [windowMs], exactly when the bridge is still running;
    after [stop] the chain of timers ends. *)
Theorem timer_flushes_and_rearms (env : Env) (b : Bridge) :
  flushing b = false ->
  exists b',
    flushTimer_fires env b = Returned tt b'
    /\ flushed (trace b')
       = flushed (trace b)
         ++ (if (0 <? Aggregator.size (aggregator b))%nat
             then [Aggregator.deltas (aggregator b)] else [])
    /\ armed (trace b')
       = armed (trace b) ++ (if running b then [windowMs b] else [])
    /\ flushTimer b' = running b || flushTimer b.
Proof.
  intros Hbusy.
  destruct (flush_spec env b) as (b1 & E1 & Hs & Hfl & Harm & Hskip).
  rewrite Hbusy in Hfl. cbn [negb andb] in Hfl.
  set (b2 := if (0 <? Aggregator.size (aggregator b))%nat then b1 else b).
  assert (flushTimer_fires env b = scheduleFlush b2) as ->.
  { unfold flushTimer_fires. unfold bind at 1. unfold get at 1.
    unfold bind at 1. unfold when, b2.
    destruct (0 <? Aggregator.size (aggregator b))%nat; [by rewrite E1 | done]. }
  destruct Hs as (Hr & _ & Ht & Hw & _).
  assert (running b2 = running b /\ windowMs b2 = windowMs b
          /\ flushTimer b2 = flushTimer b
          /\ armed (trace b2) = armed (trace b)
          /\ flushed (trace b2)
             = flushed (trace b)
               ++ (if (0 <? Aggregator.size (aggregator b))%nat
                   then [Aggregator.deltas (aggregator b)] else []))
    as (Hr2 & Hw2 & Ht2 & Ha2 & Hf2).
  { unfold b2. destruct (0 <? Aggregator.size (aggregator b))%nat; [done|].
    rewrite app_nil_r. done. }
  rewrite scheduleFlush_runs, Hr2, Hw2. eexists. split; [reflexivity|].
  destruct (running b); cbn.
  - rewrite flushed_app, armed_app, Hf2, Ha2. cbn. by rewrite app_nil_r.
  - by rewrite Hf2, Ha2, Ht2, app_nil_r.
Qed.

Lemma timer_flushes_and_rearms_witness :
  exists b',
    flushTimer_fires healthy (with_running true folded_a_b) = Returned tt b'
    /\ flushed (trace b') = [batch_a_b]
    /\ armed (trace b') = [500%nat].
Proof.
  destruct (timer_flushes_and_rearms healthy (with_running true folded_a_b) eq_refl)
    as (b' & E & Hf & Ha & _).
  exists b'. split; [exact E|].
  split; [rewrite Hf | rewrite Ha]; vm_compute; reflexivity.
Defined.

End LoopPaths.

(* ================================================================== *)
(** ** Starting and stopping *)
(* ================================================================== *)

Section StartStop.

Implicit Types (b : Bridge) (env : Env) (sd : Shutdown).

Lemma flush_grows env b : exists b', flush env b = Returned tt b' /\ grows b b'.
Proof.
  destruct (flushing b) eqn:Hbusy.
  { exists b. split; [|apply grows_refl]. unfold flush, bind, get. by rewrite Hbusy. }
  destruct (decide (Aggregator.size (aggregator b) = 0%nat)) as [Hz | Hnz].
  { exists b. split; [by apply flush_idle | apply grows_refl]. }
  destruct (flush_runs env b Hbusy Hnz) as (b1 & E & ->).
  destruct (doFlush_grows env (with_flushing true b)) as (b1' & E' & Hg).
  rewrite E in E'. injection E' as <-.
  exists (with_flushing false b1). split; [done|]. exact Hg.
Qed.

Lemma start_running env b : running b = true -> start env b = Returned tt b.
Proof. intros Hr. unfold start, bind, get. by rewrite Hr. Qed.

(** The two ends of [start] on a bridge that is not running. *)
Lemma start_cases env b :
  running b = false ->
  (exists b', start env b = Returned tt b' /\ running b' = true /\ flushTimer b' = true)
  \/ (exists e t,
        start env b = Thrown e (with_trace (trace b ++ t) b)
        /\ Forall (fun c => c = ProviderInitialize
                            \/ c = XGroupCreate (streamKey b) (groupName b)) t).
Proof.
  intros Hrun.
  assert ((forall e, provider_initialize env <> Some (Rejects e)) ->
          (forall e, redis_xgroup env = Rejects e -> not_busygroup e = false) ->
          exists b', start env b = Returned tt b' /\ running b' = true
                     /\ flushTimer b' = true) as Hgo.
  { intros Hi Hg.
    destruct (start_from_recovery env (started_state env b) eq_refl)
      as (recovered & rest & b' & _ & _ & Es & Hr & Ht & _).
    exists b'. split; [|done]. by rewrite start_proceeds. }
  destruct (provider_initialize env) as [[[]|e]|] eqn:Ei.
  - destruct (redis_xgroup env) as [[]|e] eqn:Eg.
    + left. apply Hgo; intros; discriminate.
    + destruct (not_busygroup e) eqn:Eb.
      * right. exists e, [ProviderInitialize; XGroupCreate (streamKey b) (groupName b)].
        split; [|repeat (constructor; [auto|]); constructor].
        unfold start.
        unfold bind at 1. unfold get at 1. rewrite Hrun.
        unfold bind at 1. rewrite Ei, await_resolves, resumed_nil.
        unfold bind at 1. unfold get at 1. unfold bind at 1. unfold get at 1.
        unfold bind at 1. unfold try_catch.
        rewrite Eg, await_rejects, resumed_nil, Eb.
        unfold throw. f_equal. unfold with_trace. cbn. by rewrite <- app_assoc.
      * left. apply Hgo; [intros; discriminate|]. intros e' [= <-]. exact Eb.
  - right. exists e, [ProviderInitialize]. split; [|repeat (constructor; [auto|]); constructor].
    unfold start. unfold bind at 1. unfold get at 1. rewrite Hrun.
    unfold bind at 1. rewrite Ei, await_rejects, resumed_nil. reflexivity.
  - destruct (redis_xgroup env) as [[]|e] eqn:Eg.
    + left. apply Hgo; intros; discriminate.
    + destruct (not_busygroup e) eqn:Eb.
      * right. exists e, [XGroupCreate (streamKey b) (groupName b)].
        split; [|repeat (constructor; [auto|]); constructor].
        unfold start.
        unfold bind at 1. unfold get at 1. rewrite Hrun.
        unfold bind at 1. rewrite Ei. unfold ret at 1.
        unfold bind at 1. unfold get at 1. unfold bind at 1. unfold get at 1.
        unfold bind at 1. unfold try_catch.
        rewrite Eg, await_rejects, resumed_nil, Eb.
        reflexivity.
      * left. apply Hgo; [intros; discriminate|]. intros e' [= <-]. exact Eb.
Qed.

(** X13.  [start] is idempotent: once a [start] has returned, a further
    [start], whatever the provider and the log would answer, makes no
    call, emits nothing and leaves the bridge as it is. *)
Theorem second_start_is_noop (env env' : Env) (b b1 : Bridge) :
  start env b = Returned tt b1 ->
  start env' b1 = Returned tt b1.
Proof.
  intros E. apply start_running.
  destruct (running b) eqn:Hrun.
  - rewrite (start_running env b Hrun) in E. by injection E as <-.
  - destruct (start_cases env b Hrun) as [(b' & E' & Hr & _) | (e & t & E' & _)].
    + rewrite E in E'. by injection E' as <-.
    + rewrite E in E'. discriminate.
Qed.

Lemma second_start_is_noop_witness :
  exists b1,
    start recovery_world test_bridge = Returned tt b1
    /\ start initialize_fails b1 = Returned tt b1.
Proof.
  eexists. split; [vm_compute; reflexivity|].
  apply (second_start_is_noop recovery_world initialize_fails test_bridge).
  vm_compute. reflexivity.
Defined.



(** *** [stop] *)

Lemma stop_begin_runs b : stop_begin b = Returned tt (halted b).
Proof.
  unfold stop_begin, halted, bind, modify, get, when, record, modify. cbn.
  by destruct (flushTimer b).
Qed.

Lemma halted_spec b :
  running (halted b) = false
  /\ flushTimer (halted b) = false
  /\ flushing (halted b) = flushing b
  /\ aggregator (halted b) = aggregator b
  /\ pendingIds (halted b) = pendingIds b
  /\ stats (halted b) = stats b
  /\ flushed (trace (halted b)) = flushed (trace b)
  /\ acknowledged (trace (halted b)) = acknowledged (trace b)
  /\ emitted (trace (halted b)) = emitted (trace b)
  /\ armed (trace (halted b)) = armed (trace b)
  /\ exists t, trace (halted b) = trace b ++ t /\ Forall (eq ClearTimeout) t.
Proof.
  unfold halted. destruct (flushTimer b) eqn:Ht; cbn.
  - rewrite flushed_app, acknowledged_app, emitted_app, armed_app. cbn.
    rewrite !app_nil_r. repeat (split; [done|]).
    exists [ClearTimeout]. split; [done|]. by constructor.
  - repeat (split; [done|]). exists []. by rewrite app_nil_r.
Qed.

(** A call of [stop] awaited, the read loop finishing what it has in
    flight meanwhile. *)
Lemma shutdown_call call rounds parse b :
  call = ProviderClose \/ call = RedisQuit ->
  let b' := resumed rounds parse (with_trace (trace b ++ [call]) b) in
  same_settings b b'
  /\ flushed (trace b') = flushed (trace b)
  /\ acknowledged (trace b') = acknowledged (trace b)
  /\ armed (trace b') = armed (trace b)
  /\ (exists t, trace b' = trace b ++ call :: t /\ Forall read_effect t)
  /\ (rounds = [] -> b' = with_trace (trace b ++ [call]) b).
Proof.
  intros Hcall b'.
  pose proof (proj2 (resumed_spec rounds parse (with_trace (trace b ++ [call]) b)))
    as Hra. fold b' in Hra.
  split; [|split; [|split; [|split; [|split]]]].
  - eapply same_settings_trans; [|apply (read_activity_settings _ _ Hra)].
    repeat (split; [done|]). by exists [call].
  - rewrite (read_activity_flushed _ _ Hra). cbn. rewrite flushed_app.
    destruct Hcall as [-> | ->]; cbn; by rewrite app_nil_r.
  - rewrite (read_activity_acknowledged _ _ Hra). cbn. rewrite acknowledged_app.
    destruct Hcall as [-> | ->]; cbn; by rewrite app_nil_r.
  - rewrite (read_activity_armed _ _ Hra). cbn. rewrite armed_app.
    destruct Hcall as [-> | ->]; cbn; by rewrite app_nil_r.
  - destruct Hra as [_ _ (t & E & Ht) _ _ _ _ _ _ _ _ _]. exists t.
    split; [|done]. rewrite E. cbn. by rewrite <- app_assoc.
  - intros ->. unfold b'. apply resumed_nil.
Qed.






(** X17.  A failure of [close] or of [quit], no flush being in flight
    when [stop] is called, makes [stop] fail with that error, the bridge already marked as stopped and its timer cleared;
    [stopped] is not emitted, and after a failed [close] the connection
    is not quit. *)
Theorem failed_shutdown_skips_stopped (env : Env) (sd : Shutdown) (b : Bridge)
    (e : Error) :
  flushing b = false ->
  provider_close sd = Some (Rejects e)
  \/ ((forall e', provider_close sd <> Some (Rejects e'))
      /\ redis_quit sd = Rejects e) ->
  exists b' t,
    stop env sd b = Thrown e b'
    /\ running b' = false
    /\ flushTimer b' = false
    /\ trace b' = trace b ++ t
    /\ (Emit Stopped ∉ t)
    /\ (provider_close sd = Some (Rejects e) -> RedisQuit ∉ t).
Proof.
  intros _ Hfail.
  destruct (flush_grows env (halted b)) as (b1 & E1 & t1 & Ht1 & Hfe1).
  destruct (flush_spec env (halted b)) as (b1' & E1' & Hs1 & _).
  rewrite E1 in E1'. injection E1' as <-.
  destruct (halted_spec b)
    as (Hrun & Htimer & _ & _ & _ & _ & _ & _ & _ & _ & t0 & Ht0 & Hc0).
  destruct Hs1 as (Hs1_r & _ & Hs1_t & _).
  assert (Forall (fun c => c <> Emit Stopped /\ c <> RedisQuit) (t0 ++ t1)) as Hpre.
  { apply Forall_app. split.
    - eapply Forall_impl; [exact Hc0|]. by intros c <-.
    - eapply Forall_impl; [exact Hfe1|].
      intros [[]| | | | | | | | |]; done. }
  assert (forall t, Forall read_effect t ->
                    Forall (fun c => c <> Emit Stopped /\ c <> RedisQuit) t) as Hread.
  { intros t Ht. eapply Forall_impl; [exact Ht|].
    intros [[]| | | | | | | | |]; done. }
  destruct Hfail as [Hc | (Hc & Hq)].
  - destruct (shutdown_call ProviderClose (during_close sd) (JSON_parse env) b1
                (or_introl eq_refl)) as ((Hr2 & _ & Ht2 & _) & _ & _ & _ & (t2 & E2 & Hf2) & _).
    eexists _, (t0 ++ t1 ++ ProviderClose :: t2).
    split.
    { unfold stop. unfold bind at 1. rewrite stop_begin_runs.
      unfold stop_finish. unfold bind at 1. rewrite E1. unfold bind at 1.
      rewrite Hc, await_rejects. reflexivity. }
    split; [by rewrite Hr2, Hs1_r|]. split; [by rewrite Ht2, Hs1_t|].
    split; [by rewrite E2, Ht1, Ht0, <- !app_assoc|].
    assert (Forall (fun c => c <> Emit Stopped /\ c <> RedisQuit)
              (t0 ++ t1 ++ ProviderClose :: t2)) as Hall.
    { rewrite app_assoc. apply Forall_app. split; [exact Hpre|].
      constructor; [done | by apply Hread]. }
    rewrite Forall_forall in Hall.
    split; [intros Hin; by destruct (Hall _ Hin) | intros _ Hin; by destruct (Hall _ Hin)].
  - set (b2 := match provider_close sd with
               | Some _ => resumed (during_close sd) (JSON_parse env)
                             (with_trace (trace b1 ++ [ProviderClose]) b1)
               | None => b1
               end).
    assert (running b2 = running b1 /\ flushTimer b2 = flushTimer b1
            /\ exists t2, trace b2 = trace b1 ++ t2
                          /\ Forall (fun c => c <> Emit Stopped) t2)
      as (Hr2 & Htm2 & t2 & E2 & Hf2).
    { unfold b2. destruct (provider_close sd) as [end_|].
      - destruct (shutdown_call ProviderClose (during_close sd) (JSON_parse env) b1
                    (or_introl eq_refl))
          as ((? & _ & ? & _) & _ & _ & _ & (t2 & E2 & Hf2) & _).
        split; [done|]. split; [done|]. exists (ProviderClose :: t2).
        split; [done|]. constructor; [done|].
        eapply Forall_impl; [apply (Hread _ Hf2)|]. by intros c [? _].
      - split; [done|]. split; [done|]. exists []. by rewrite app_nil_r. }
    destruct (shutdown_call RedisQuit (during_quit sd) (JSON_parse env) b2
                (or_intror eq_refl))
      as ((Hr3 & _ & Htm3 & _) & _ & _ & _ & (t3 & E3 & Hf3) & _).
    eexists _, (t0 ++ t1 ++ t2 ++ RedisQuit :: t3).
    split.
    { unfold stop. unfold bind at 1. rewrite stop_begin_runs.
      unfold stop_finish. unfold bind at 1. rewrite E1. unfold bind at 1.
      fold b2.
      assert (match provider_close sd with
              | Some end_ => await ProviderClose (during_close sd) (JSON_parse env) end_
              | None => ret tt
              end b1 = Returned tt b2) as ->.
      { unfold b2. destruct (provider_close sd) as [[[]|e']|] eqn:Ec.
        - by rewrite await_resolves.
        - exfalso. by apply (Hc e').
        - done. }
      unfold bind at 1. rewrite Hq, await_rejects. reflexivity. }
    split; [by rewrite Hr3, Hr2, Hs1_r|]. split; [by rewrite Htm3, Htm2, Hs1_t|].
    split; [by rewrite E3, E2, Ht1, Ht0, <- !app_assoc|].
    split.
    + assert (Forall (fun c => c <> Emit Stopped) (t0 ++ t1 ++ t2 ++ RedisQuit :: t3))
        as Hall.
      { rewrite app_assoc. apply Forall_app. split.
        - eapply Forall_impl; [exact Hpre|]. by intros c [? _].
        - apply Forall_app. split; [exact Hf2|]. constructor; [done|].
          eapply Forall_impl; [apply (Hread _ Hf3)|]. by intros c [? _]. }
      rewrite Forall_forall in Hall. intros Hin. by apply (Hall _ Hin).
    + intros Hc'. exfalso. by apply (Hc e).
Qed.

Lemma failed_shutdown_skips_stopped_witness :
  exists b' t,
    stop healthy (quiet_shutdown (Some (Rejects (error "close failed"))) (Resolves tt))
      folded_a_b = Thrown (error "close failed") b'
    /\ trace b' = trace folded_a_b ++ t
    /\ (Emit Stopped ∉ t).
Proof.
  destruct (failed_shutdown_skips_stopped healthy
              (quiet_shutdown (Some (Rejects (error "close failed"))) (Resolves tt))
              folded_a_b (error "close failed") eq_refl (or_introl eq_refl))
    as (b' & t & E & _ & _ & Ht & Hs & _).
  exists b', t. auto.
Defined.

End StartStop.

(* ================================================================== *)
(** ** Reading counters back *)
(* ================================================================== *)

Section ReadFacts.

Implicit Types (reads : Reads) (scopes : list string).

Lemma get_all_spec reads scopes :
  match get_all reads scopes with
  | Resolves entries =>
      entries.*1 = scopes
      /\ forall s v, (s, v) ∈ entries -> provider_get reads s = Resolves v
  | Rejects err => exists s, s ∈ scopes /\ provider_get reads s = Rejects err
  end.
Proof.
  induction scopes as [|scope rest IH]; cbn [get_all].
  - split; [done|]. intros s v H. inversion H.
  - destruct (provider_get reads scope) as [v|err] eqn:Hget.
    + destruct (get_all reads rest) as [entries|err].
      * destruct IH as (Hkeys & Hvals). split; [cbn; by rewrite Hkeys|].
        intros s v' [[= -> ->] | H]%elem_of_cons; [done | by apply Hvals].
      * destruct IH as (s & Hin & Hs). exists s. split; [by right | done].
    + exists scope. split; [by left | done].
Qed.

(** [new Map(entries)] when every entry carries the value [f] gives its
    key: the keys are those of the entries, each with its value. *)
Lemma Map_of_lookup (f : string -> JS.number) entries s :
  (forall k v, (k, v) ∈ entries -> v = f k) ->
  Map_of entries !! s = if bool_decide (s ∈ entries.*1) then Some (f s) else None.
Proof.
  unfold Map_of. intros Hf.
  assert (forall m : gmap string JS.number,
            fold_left (fun m entry => <[entry.1 := entry.2]> m) entries m !! s
            = if bool_decide (s ∈ entries.*1) then Some (f s) else m !! s) as H.
  { induction entries as [|[k v] entries IH]; intros m; [done|].
    cbn [fold_left fmap list_fmap fst snd]. rewrite IH.
    2:{ intros k' v' H. apply Hf. by right. }
    destruct (decide (s ∈ entries.*1)) as [Hin | Hout].
    - rewrite !bool_decide_eq_true_2; [done | by right | done].
    - rewrite (bool_decide_eq_false_2 _ Hout).
      destruct (decide (s = k)) as [-> | Hne].
      + rewrite bool_decide_eq_true_2 by (by left).
        rewrite lookup_insert_eq. f_equal. apply Hf. by left.
      + rewrite bool_decide_eq_false_2.
        2:{ intros [? | ?]%elem_of_cons; contradiction. }
        by rewrite lookup_insert_ne. }
  rewrite H. by destruct (bool_decide _).
Qed.

(** X18.  [getBatch] over a provider without [getBatch]: it reads every
    requested scope with [get]; when all reads resolve, the map holds
    exactly the requested scopes, each with the value [get] gave, and
    when it rejects, the error is that of the [get] of a requested
    scope. *)
Theorem getBatch_falls_back_to_get (reads : Reads) (scopes : list string) :
  provider_getBatch reads = None ->
  match getBatch reads scopes with
  | Resolves values =>
      dom values = list_to_set scopes
      /\ forall s, s ∈ scopes ->
           exists v, provider_get reads s = Resolves v /\ values !! s = Some v
  | Rejects err => exists s, s ∈ scopes /\ provider_get reads s = Rejects err
  end.
Proof.
  intros Hnone. unfold getBatch. rewrite Hnone.
  pose proof (get_all_spec reads scopes) as Hall.
  destruct (get_all reads scopes) as [entries|err]; [|exact Hall].
  destruct Hall as (Hkeys & Hvals).
  set (f := fun s => match provider_get reads s with
                     | Resolves v => v
                     | Rejects _ => JS.NaN
                     end).
  assert (forall k v, (k, v) ∈ entries -> v = f k) as Hf.
  { intros k v Hin. unfold f. by rewrite (Hvals k v Hin). }
  split.
  - apply set_eq. intros s. rewrite elem_of_dom, elem_of_list_to_set.
    rewrite (Map_of_lookup f entries s Hf), Hkeys.
    destruct (decide (s ∈ scopes)) as [Hin | Hout].
    + rewrite bool_decide_eq_true_2 by done. split; [done | by eexists].
    + rewrite bool_decide_eq_false_2 by done. split; [by intros [? ?] | done].
  - intros s Hin.
    assert (s ∈ entries.*1) as Hin' by (by rewrite Hkeys).
    apply list_elem_of_fmap in Hin' as ([k v] & -> & Hkv).
    cbn [fst] in *. exists v. split; [by apply Hvals|].
    rewrite (Map_of_lookup f entries k Hf), Hkeys, bool_decide_eq_true_2 by done.
    f_equal. symmetry. by apply Hf.
Qed.

Lemma getBatch_falls_back_to_get_witness :
  exists values,
    getBatch {| provider_get := fun s => Resolves (JS.Int (Z.of_nat (String.length s)));
                provider_getBatch := None |} ["a"; "bcd"; "a"]%string
    = Resolves values
    /\ values !! "bcd"%string = Some (JS.Int 3)
    /\ values !! "a"%string = Some (JS.Int 1).
Proof.
  pose proof (getBatch_falls_back_to_get
                {| provider_get := fun s => Resolves (JS.Int (Z.of_nat (String.length s)));
                   provider_getBatch := None |} ["a"; "bcd"; "a"]%string eq_refl) as H.
  destruct (getBatch _ _) as [values|err] eqn:E.
  - exists values. split; [done|]. destruct H as (Hdom & Hval).
    split.
    + destruct (Hval "bcd"%string) as (v & [= <-] & Hv); [|exact Hv].
      right. left.
    + destruct (Hval "a"%string) as (v & [= <-] & Hv); [|exact Hv].
      left.
  - destruct H as (s & _ & Hs). discriminate.
Defined.

End ReadFacts.

(* ================================================================== *)
(** ** The MongoDB provider: partial failures and reads *)
(* ================================================================== *)

Section MongoReads.




Lemma fold_insert_lookup (f : string -> JS.number)
    (entries : list (string * JS.number)) (m : gmap string JS.number) (s : string) :
  (forall k v, (k, v) ∈ entries -> v = f k) ->
  fold_left (fun m entry => <[entry.1 := entry.2]> m) entries m !! s
  = if bool_decide (s ∈ entries.*1) then Some (f s) else m !! s.
Proof.
  revert m. induction entries as [|[k v] entries IH]; intros m Hf; [done|].
  cbn [fold_left fmap list_fmap fst snd]. rewrite IH.
  2:{ intros k' v' H. apply Hf. by right. }
  destruct (decide (s ∈ entries.*1)) as [Hin | Hout].
  - rewrite !bool_decide_eq_true_2; [done | by right | done].
  - rewrite (bool_decide_eq_false_2 _ Hout).
    destruct (decide (s = k)) as [-> | Hne].
    + rewrite bool_decide_eq_true_2 by (by left).
      rewrite lookup_insert_eq. f_equal. apply Hf. by left.
    + rewrite bool_decide_eq_false_2.
      2:{ intros [? | ?]%elem_of_cons; contradiction. }
      by rewrite lookup_insert_ne.
Qed.

Lemma zeros_lookup (scopes : list string) (m : gmap string JS.number) (s : string) :
  fold_left (fun m scope => <[scope := JS.Int 0]> m) scopes m !! s
  = if bool_decide (s ∈ scopes) then Some (JS.Int 0) else m !! s.
Proof.
  revert m. induction scopes as [|k scopes IH]; intros m; [done|].
  cbn [fold_left]. rewrite IH.
  destruct (decide (s ∈ scopes)) as [Hin | Hout].
  - rewrite !bool_decide_eq_true_2; [done | by right | done].
  - rewrite (bool_decide_eq_false_2 _ Hout).
    destruct (decide (s = k)) as [-> | Hne].
    + rewrite bool_decide_eq_true_2 by (by left). by rewrite lookup_insert_eq.
    + rewrite bool_decide_eq_false_2.
      2:{ intros [? | ?]%elem_of_cons; contradiction. }
      by rewrite lookup_insert_ne.
Qed.

(** X20.  The batch read agrees with the single read: over a collection
    in which [find] returns, for the requested scopes, the documents that
    [findOne] finds, [getBatch] gives every requested scope the value
    [get] gives it, 0 for a scope without document; and it has no entry
    for a scope that was not requested. *)
Theorem mongo_getBatch_agrees_with_get
    (findOne : string -> option JS.number)
    (find : list string -> list (string * JS.number)) (scopes : list string) :
  (forall s v, (s, v) ∈ find scopes <-> s ∈ scopes /\ findOne s = Some v) ->
  forall s,
    MongoProvider.getBatch find scopes !! s
    = if bool_decide (s ∈ scopes) then Some (MongoProvider.get findOne s) else None.
Proof.
  intros Hfind s. unfold MongoProvider.getBatch.
  rewrite (fold_insert_lookup (MongoProvider.get findOne)).
  2:{ intros k v Hin. apply Hfind in Hin as (_ & Hv).
      unfold MongoProvider.get. by rewrite Hv. }
  rewrite zeros_lookup, lookup_empty.
  destruct (decide (s ∈ (find scopes).*1)) as [Hin | Hout].
  - rewrite (bool_decide_eq_true_2 _ Hin).
    apply list_elem_of_fmap in Hin as ([k v] & -> & Hkv).
    apply Hfind in Hkv as (Hk & _). cbn [fst].
    by rewrite bool_decide_eq_true_2.
  - rewrite (bool_decide_eq_false_2 _ Hout).
    destruct (decide (s ∈ scopes)) as [Hs | Hs].
    + rewrite (bool_decide_eq_true_2 _ Hs). f_equal.
      unfold MongoProvider.get. destruct (findOne s) as [v|] eqn:Hv; [|done].
      exfalso. apply Hout. apply list_elem_of_fmap. exists (s, v).
      split; [done|]. by apply Hfind.
    + by rewrite (bool_decide_eq_false_2 _ Hs).
Qed.

Lemma mongo_getBatch_agrees_with_get_witness :
  MongoProvider.getBatch (fun _ => [("a"%string, JS.Int 7)]) ["a"; "b"]%string
    !! "b"%string
  = Some (JS.Int 0).
Proof.
  rewrite (mongo_getBatch_agrees_with_get
             (fun s => if String.eqb s "a" then Some (JS.Int 7) else None)
             (fun _ => [("a"%string, JS.Int 7)]) ["a"; "b"]%string).
  - reflexivity.
  - intros s v. split.
    + intros [= -> ->]%list_elem_of_singleton. split; [left | reflexivity].
    + intros (Hs & Hv). destruct (String.eqb_spec s "a") as [-> | Hne].
      * injection Hv as <-. left.
      * discriminate.
Defined.

End MongoReads.

(* ================================================================== *)
(** ** From the client to the consumer *)
(* ================================================================== *)

Section ClientFacts.

Lemma span_uint_chars (d : Decimal.uint) :
  JS.span_digits 10 (JS.uint_chars d) = (uint_values d, []).
Proof.
  induction d; [reflexivity|..];
    cbn [JS.uint_chars JS.span_digits uint_values]; rewrite IHd; reflexivity.
Qed.

Lemma of_uint_acc_value (d : Decimal.uint) (acc : positive) :
  fold_left (fun a x => a * 10 + x) (uint_values d) (Z.pos acc)
  = Z.pos (Pos.of_uint_acc d acc).
Proof.
  revert acc. induction d; intros acc; [reflexivity|..];
    cbn [uint_values fold_left Pos.of_uint_acc]; rewrite <- IHd; f_equal; lia.
Qed.

Lemma of_uint_value (d : Decimal.uint) :
  JS.digits_value 10 (uint_values d) = Z.of_N (Pos.of_uint d).
Proof.
  unfold JS.digits_value. induction d; [reflexivity|..];
    cbn [uint_values fold_left Pos.of_uint]; [exact IHd|..];
    apply (of_uint_acc_value d).
Qed.

Lemma uint_chars_not_white (d : Decimal.uint) :
  Forall (fun c => JS.is_white c = false) (JS.uint_chars d).
Proof. induction d; cbn [JS.uint_chars]; constructor; done. Qed.

Lemma drop_white_id (cs : list ascii) :
  Forall (fun c => JS.is_white c = false) cs -> JS.drop_white cs = cs.
Proof. intros [|c cs' Hc _]; [done|]. cbn [JS.drop_white]. by rewrite Hc. Qed.

Lemma trim_id (cs : list ascii) :
  Forall (fun c => JS.is_white c = false) cs -> JS.trim cs = cs.
Proof.
  intros H. unfold JS.trim. rewrite (drop_white_id cs H).
  rewrite drop_white_id; [apply rev_involutive|]. by apply List.Forall_rev.
Qed.

Lemma non_decimal_uint_chars (d : Decimal.uint) :
  JS.non_decimal (JS.uint_chars d) = None.
Proof. destruct d as [|d| | | | | | | | |]; try reflexivity. by destruct d. Qed.

Lemma unsigned_decimal_uint_chars (d : Decimal.uint) :
  d <> Decimal.Nil ->
  JS.unsigned_decimal (JS.uint_chars d) = Some (JS.Int (Z.of_N (Pos.of_uint d))).
Proof.
  intros Hd. unfold JS.unsigned_decimal. rewrite span_uint_chars.
  assert ((length (uint_values d) =? 0)%nat = false) as ->
    by (by destruct d).
  cbn [andb JS.exponent_part]. rewrite app_nil_r, of_uint_value.
  unfold JS.scaled. cbn. by rewrite Z.mul_1_r.
Qed.

Lemma str_decimal_uint_chars (d : Decimal.uint) :
  d <> Decimal.Nil ->
  JS.str_decimal (JS.uint_chars d) = Some (JS.Int (Z.of_N (Pos.of_uint d))).
Proof.
  intros Hd. unfold JS.str_decimal.
  assert (JS.take_sign (JS.uint_chars d) = (false, JS.uint_chars d)) as ->
    by (by destruct d).
  destruct (decide (JS.uint_chars d = list_ascii_of_string "Infinity"))
    as [Heq|_].
  { destruct d; discriminate Heq. }
  by rewrite (unsigned_decimal_uint_chars d Hd).
Qed.

(** [Number(String(z))] is [z] for an integer. *)
Lemma Number_String_Int (z : Z) : JS.Number (JS.String (JS.Int z)) = JS.Int z.
Proof.
  unfold JS.String, JS.Int, JS.Number. cbn [JS.norm].
  rewrite list_ascii_of_string_of_list_ascii.
  destruct z as [|p|p]; [reflexivity|..]; cbn [JS.sign_chars JS.magnitude_chars].
  - cbn [app]. rewrite trim_id by apply uint_chars_not_white.
    pose proof (Unsigned.to_uint_nonnil p) as Hnil.
    rewrite non_decimal_uint_chars, (str_decimal_uint_chars _ Hnil), Unsigned.of_to.
    by destruct (JS.uint_chars (Pos.to_uint p)) eqn:E;
      [destruct (Pos.to_uint p); [done|discriminate E..] |].
  - cbn [app]. rewrite trim_id
      by (constructor; [done | apply uint_chars_not_white]).
    pose proof (Unsigned.to_uint_nonnil p) as Hnil.
    cbn [JS.non_decimal]. unfold JS.str_decimal. cbn [JS.take_sign].
    destruct (decide (JS.uint_chars (Pos.to_uint p) = list_ascii_of_string "Infinity"))
      as [Heq|_].
    { destruct (Pos.to_uint p); discriminate Heq. }
    rewrite (unsigned_decimal_uint_chars _ Hnil), Unsigned.of_to. reflexivity.
Qed.

(** The four fields of what [add] writes. *)
Lemma fields_of_client (stringify : JS.json -> string) (clock : Z) (scope : string)
    (delta : JS.number) (meta : option JS.json) :
  let fs := CounterClient.fields stringify clock scope delta meta in
  field "scope" fs = Some scope
  /\ field "delta" fs = Some (JS.String delta)
  /\ field "timestamp" fs = Some (JS.String (JS.Int clock))
  /\ field "metadata" fs = stringify <$> meta.
Proof.
  unfold field, CounterClient.fields.
  destruct meta; cbn [app last_value];
    repeat (destruct (decide _) as [H|H];
            [try discriminate H | try (exfalso; by apply H)]);
    done.
Qed.

(** The parser on the fields of [add]. *)
Lemma client_fields_parse
    (stringify : JS.json -> string) (parse : string -> option JS.json)
    (client_now consumer_now : Z) (c : ascii) (scope0 : string) (z : Z)
    (meta : option JS.json) (b : Bridge) :
  exists md t,
    parseEvent consumer_now parse
      (CounterClient.fields stringify client_now (String c scope0) (JS.Int z) meta) b
    = Returned
        (Some {| scope := String c scope0;
                 delta := JS.Int z;
                 metadata := md;
                 timestamp := Some (JS.Int client_now) |})
        (with_trace (trace b ++ t) b)
    /\ (meta = None -> md = None /\ t = [])
    /\ (forall m v, meta = Some m -> stringify m <> ""%string ->
                    parse (stringify m) = Some v -> md = Some v /\ t = []).
Proof.
  assert (with_trace (trace b ++ []) b = b) as Hid
    by (rewrite app_nil_r; by destruct b).
  destruct (fields_of_client stringify client_now (String c scope0) (JS.Int z) meta)
    as (Hs & Hd & Ht & Hmeta).
  unfold parseEvent. rewrite scan_fields.
  cbn [scan_scope scan_delta scan_timestamp scan_metadata].
  rewrite Hs, Hd, Ht, Hmeta.
  destruct meta as [m|]; cbn [fmap option_fmap option_map].
  - rewrite !Number_String_Int.
    destruct (stringify m) as [|c' text] eqn:Hm.
    + exists None, []. rewrite Hid. split; [done|]. split; [done|].
      intros m' v [= <-] Hne. by rewrite Hm in Hne.
    + destruct (parse (String c' text)) as [v|] eqn:Hp.
      * exists (Some v), []. unfold bind, ret. rewrite Hid.
        split; [done|]. split; [done|].
        intros m' v' [= <-] _. rewrite Hm, Hp. by intros [= <-].
      * eexists None, _. unfold bind, ret. cbn. split; [reflexivity|].
        split; [done|]. intros m' v' [= <-] _. rewrite Hm, Hp. done.
  - rewrite !Number_String_Int. exists None, []. rewrite Hid.
    split; [done|]. split; [done|]. intros m v H. discriminate H.
Qed.

(** X21.  What the client writes, the consumer reads: the fields [add]
    puts on the stream for a non-empty scope and an integer delta are
    parsed back by the consumer to an event with that scope, that delta
    and the time of the client (not that of the consumer); without
    metadata nothing is emitted, and metadata whose text parses is
    attached.  The bounds are those within which [String] prints an
    integer in plain digits. *)
Theorem client_event_round_trip
    (stringify : JS.json -> string) (parse : string -> option JS.json)
    (client_now consumer_now : Z) (c : ascii) (scope0 : string) (z : Z)
    (meta : option JS.json) (b : Bridge) :
  Z.abs z < 10 ^ 21 ->
  0 <= client_now < 10 ^ 21 ->
  exists md t,
    parseEvent consumer_now parse
      (CounterClient.fields stringify client_now (String c scope0) (JS.Int z) meta) b
    = Returned
        (Some {| scope := String c scope0;
                 delta := JS.Int z;
                 metadata := md;
                 timestamp := Some (JS.Int client_now) |})
        (with_trace (trace b ++ t) b)
    /\ (meta = None -> md = None /\ t = [])
    /\ (forall m v, meta = Some m -> stringify m <> ""%string ->
                    parse (stringify m) = Some v -> md = Some v /\ t = []).
Proof. intros _ _. apply client_fields_parse. Qed.

Lemma client_event_round_trip_witness :
  exists md t,
    parseEvent 2000 no_json
      (CounterClient.fields (fun _ => "{}"%string) 1000 "page:1" (JS.Int (-1)) None)
      test_bridge
    = Returned
        (Some {| scope := "page:1";
                 delta := JS.Int (-1);
                 metadata := md;
                 timestamp := Some (JS.Int 1000) |})
        (with_trace (trace test_bridge ++ t) test_bridge)
    /\ md = None /\ t = [].
Proof.
  destruct (client_event_round_trip (fun _ => "{}"%string) no_json 1000 2000
              "p"%char "age:1" (-1) None test_bridge)
    as (md & t & E & Hnone & _); [reflexivity | lia |].
  exists md, t. split; [exact E|]. by apply Hnone.
Defined.




End ClientFacts.

(* ================================================================== *)
(** ** The plugin: scopes and hydrated counters *)
(* ================================================================== *)

Section PluginFacts.

Implicit Types (options : Plugin.CounterPluginOptions) (doc : Plugin.Document).

Lemma counterScope_declared options doc f :
  f ∈ Plugin.fields options ->
  Plugin.counterScope options doc f = inr (scope_text options doc f).
Proof. intros Hf. unfold Plugin.counterScope. by rewrite bool_decide_eq_true_2. Qed.

Lemma counterScope_undeclared options doc f :
  f ∉ Plugin.fields options ->
  exists err, Plugin.counterScope options doc f = inl err.
Proof.
  intros Hf. unfold Plugin.counterScope. rewrite bool_decide_eq_false_2 by done.
  by eexists.
Qed.

Lemma append_inv_head (p a b : string) : (p ++ a = p ++ b)%string -> a = b.
Proof. induction p as [|c p IH]; cbn; [done|]. intros [= H]. by apply IH. Qed.

(** X22.  Within a document the scope names the field: [counterScope]
    fails exactly for a field that was not declared, and two declared
    fields with the same scope are the same field. *)
Theorem counterScope_names_the_field options doc (f1 f2 : string) :
  (f1 ∈ Plugin.fields options <->
   exists sc, Plugin.counterScope options doc f1 = inr sc)
  /\ (forall sc, Plugin.counterScope options doc f1 = inr sc ->
                 Plugin.counterScope options doc f2 = inr sc -> f1 = f2).
Proof.
  split; [split|].
  - intros Hf. eexists. by apply counterScope_declared.
  - intros (sc & E). destruct (decide (f1 ∈ Plugin.fields options)) as [|Hout]; [done|].
    destruct (counterScope_undeclared options doc f1 Hout) as (err & E').
    rewrite E in E'. discriminate.
  - unfold Plugin.counterScope. intros sc.
    destruct (bool_decide (f1 ∈ _)); [|discriminate].
    destruct (bool_decide (f2 ∈ _)); [|discriminate].
    intros [= <-] [= H].
    apply (append_inv_head (Plugin.prefix_of options doc)) in H.
    cbn [String.append] in H. injection H as H.
    apply (append_inv_head (Plugin._id doc)) in H.
    cbn [String.append] in H. injection H as H. by symmetry.
Qed.

Lemma scopes_of_declared options doc fs :
  (forall f, f ∈ fs -> f ∈ Plugin.fields options) ->
  Plugin.scopes_of options doc fs = inr (scope_text options doc <$> fs).
Proof.
  induction fs as [|f fs IH]; intros Hfs; [done|].
  cbn [Plugin.scopes_of]. rewrite counterScope_declared by (apply Hfs; by left).
  rewrite IH; [done|]. intros g Hg. apply Hfs. by right.
Qed.

Lemma scopes_of_undeclared options doc fs f :
  f ∈ fs -> f ∉ Plugin.fields options ->
  exists err, Plugin.scopes_of options doc fs = inl err.
Proof.
  intros Hin Hout. induction fs as [|g fs IH]; [inversion Hin|].
  cbn [Plugin.scopes_of].
  destruct (Plugin.counterScope options doc g) as [err|sc] eqn:E; [by eexists|].
  apply elem_of_cons in Hin as [-> | Hin].
  - destruct (counterScope_undeclared options doc g Hout) as (err & E').
    rewrite E in E'. discriminate.
  - destruct (IH Hin) as (err & ->). by eexists.
Qed.

Lemma counters_of_declared options doc values fs acc :
  (forall f, f ∈ fs -> f ∈ Plugin.fields options) ->
  exists result,
    Plugin.counters_of options doc values fs acc = inr result
    /\ forall f, result !! f
                 = match counters_from options doc values fs f with
                   | Some v => Some v
                   | None => acc !! f
                   end.
Proof.
  revert acc. induction fs as [|g fs IH]; intros acc Hfs.
  - exists acc. split; [done|]. intros f. unfold counters_from.
    rewrite bool_decide_eq_false_2; [done|]. intros H. inversion H.
  - cbn [Plugin.counters_of]. rewrite counterScope_declared by (apply Hfs; by left).
    destruct (IH (<[g := default (JS.Int 0) (values !! scope_text options doc g)]> acc))
      as (result & -> & Hres).
    { intros f Hf. apply Hfs. by right. }
    exists result. split; [done|]. intros f. rewrite Hres. unfold counters_from.
    destruct (decide (f ∈ fs)) as [Hin | Hout].
    + rewrite !bool_decide_eq_true_2; [done | by right | done].
    + rewrite (bool_decide_eq_false_2 _ Hout).
      destruct (decide (f = g)) as [-> | Hne].
      * rewrite bool_decide_eq_true_2 by (by left). by rewrite lookup_insert_eq.
      * rewrite bool_decide_eq_false_2.
        2:{ intros [? | ?]%elem_of_cons; contradiction. }
        by rewrite lookup_insert_ne.
Qed.

(** X23.  [getCounters] reads the scopes of the declared fields in one
    batch and returns exactly the declared fields, each with the value
    read for its scope, 0 when the batch has none; it never raises the
    unknown field error, and a failed read is passed on. *)
Theorem getCounters_reads_declared_fields options doc (reads : Reads) :
  match getBatch reads (scope_text options doc <$> Plugin.fields options) with
  | Resolves values =>
      exists result,
        Plugin.getCounters options doc reads = Resolves result
        /\ forall f, result !! f
                     = counters_from options doc values (Plugin.fields options) f
  | Rejects err => Plugin.getCounters options doc reads = Rejects err
  end.
Proof.
  unfold Plugin.getCounters. rewrite scopes_of_declared by done.
  destruct (getBatch reads _) as [values|err]; [|done].
  destruct (counters_of_declared options doc values (Plugin.fields options) ∅)
    as (result & -> & Hres); [done|].
  exists result. split; [done|]. intros f. rewrite Hres, lookup_empty.
  by destruct (counters_from _ _ _ _ _).
Qed.

Lemma all_scopes_declared options docs fs :
  (forall f, f ∈ fs -> f ∈ Plugin.fields options) ->
  Plugin.all_scopes options docs fs
  = inr (flat_map (fun doc => scope_text options doc <$> fs) docs).
Proof.
  intros Hfs. induction docs as [|doc docs IH]; [done|].
  cbn [Plugin.all_scopes flat_map]. by rewrite scopes_of_declared, IH.
Qed.

Lemma hydrate_declared options values fs docs :
  (forall f, f ∈ fs -> f ∈ Plugin.fields options) ->
  exists result,
    Plugin.hydrate options values fs docs = inr result
    /\ result.*1 = docs
    /\ Forall (fun entry =>
                 forall f, entry.2 !! f = counters_from options entry.1 values fs f)
         result.
Proof.
  intros Hfs. induction docs as [|doc docs (result & E & Hdocs & Hall)].
  - exists []. by repeat split.
  - cbn [Plugin.hydrate].
    destruct (counters_of_declared options doc values fs ∅ Hfs) as (counters & -> & Hc).
    rewrite E. exists ((doc, counters) :: result).
    split; [done|]. split; [cbn; by rewrite Hdocs|].
    constructor; [|done]. intros f. cbn [fst snd]. rewrite Hc, lookup_empty.
    by destruct (counters_from _ _ _ _ _).
Qed.

(** X24.  [withCounters] on documents and declared fields: one batch
    read of the scopes of all the documents, and one result per document,
    in the order of the documents, with exactly the requested fields,
    each read from its own scope (0 when missing).  A field that was not
    declared makes it reject, and without documents it resolves to the
    empty list whatever the fields. *)
Theorem withCounters_hydrates_each_document options (docs : list Plugin.Document)
    (counterFields : option (list string)) (reads : Reads) :
  let fs := default (Plugin.fields options) counterFields in
  (docs = [] -> Plugin.withCounters options docs counterFields reads = Resolves [])
  /\ (docs <> [] -> forall f, f ∈ fs -> f ∉ Plugin.fields options ->
      exists err, Plugin.withCounters options docs counterFields reads = Rejects err)
  /\ (docs <> [] -> (forall f, f ∈ fs -> f ∈ Plugin.fields options) ->
      match getBatch reads (flat_map (fun doc => scope_text options doc <$> fs) docs) with
      | Resolves values =>
          exists result,
            Plugin.withCounters options docs counterFields reads = Resolves result
            /\ result.*1 = docs
            /\ Forall (fun entry =>
                         forall f, entry.2 !! f
                                   = counters_from options entry.1 values fs f)
                 result
      | Rejects err => Plugin.withCounters options docs counterFields reads = Rejects err
      end).
Proof.
  intros fs. split; [by intros ->|]. split.
  - intros Hdocs f Hin Hout. destruct docs as [|doc docs]; [done|].
    unfold Plugin.withCounters. fold fs. cbn [Plugin.all_scopes].
    destruct (scopes_of_undeclared options doc fs f Hin Hout) as (err & ->).
    by eexists.
  - intros Hdocs Hfs. destruct docs as [|doc docs]; [done|].
    unfold Plugin.withCounters. fold fs. rewrite all_scopes_declared by done.
    destruct (getBatch reads _) as [values|err]; [|done].
    destruct (hydrate_declared options values fs (doc :: docs) Hfs)
      as (result & -> & Hd & Hall).
    by exists result.
Qed.

Lemma withCounters_hydrates_each_document_witness :
  exists result,
    Plugin.withCounters
      {| Plugin.fields := ["views"; "likes"]; Plugin.scopePrefix := None |}
      [{| Plugin.modelName := Some "Post"; Plugin._id := "42" |}]
      (Some ["likes"])
      {| provider_get := fun _ => Resolves (JS.Int 5); provider_getBatch := None |}
    = Resolves result
    /\ result.*1 = [{| Plugin.modelName := Some "Post"; Plugin._id := "42" |}].
Proof.
  destruct (withCounters_hydrates_each_document
              {| Plugin.fields := ["views"; "likes"]; Plugin.scopePrefix := None |}
              [{| Plugin.modelName := Some "Post"; Plugin._id := "42" |}]
              (Some ["likes"])
              {| provider_get := fun _ => Resolves (JS.Int 5); provider_getBatch := None |})
    as (_ & _ & H).
  specialize (H ltac:(discriminate)).
  assert (forall f : string, f ∈ ["likes"%string] -> f ∈ ["views"; "likes"]%string) as Hfs.
  { intros f ->%list_elem_of_singleton. right. left. }
  specialize (H Hfs). cbn in H.
  destruct H as (result & E & Hd & _). exists result. split; [exact E | exact Hd].
Defined.

(** The command of [add] ends with its fields. *)
Lemma add_ends_with_fields (client : CounterClient.t) (stringify : JS.json -> string)
    (clock : Z) (sc : string) (delta : JS.number) (meta : option JS.json) :
  exists command,
    CounterClient.add client stringify clock sc delta meta
    = command ++ CounterClient.fields stringify clock sc delta meta
    /\ head command = Some (CounterClient.streamKey client)
    /\ last command = Some "*"%string.
Proof.
  unfold CounterClient.add.
  destruct (0 <? CounterClient.maxStreamLength client); eexists; by split.
Qed.

(** X28.  A write through the plugin reaches the stream only once the
    client is set up and only for a declared field; without a client the
    error is that of [getClient], whatever the field.  What [inc] and
    [dec] then write is an entry the consumer keeps: its scope is the
    scope of the field, which is never empty, and its delta is 1 or -1. *)
Theorem plugin_writes_are_kept options doc (st : Setup.State)
    (stringify : JS.json -> string) (parse : string -> option JS.json)
    (clock consumer_now : Z) (f : string) (up : bool) (b : Bridge) :
  let write := if up then Plugin.inc else Plugin.dec in
  match write options doc st stringify clock f None with
  | inr args =>
      f ∈ Plugin.fields options
      /\ exists client command entry,
           st = Some client
           /\ args = command ++ entry
           /\ head command = Some (CounterClient.streamKey client)
           /\ parseEvent consumer_now parse entry b
              = Returned
                  (Some {| scope := scope_text options doc f;
                           delta := JS.Int (if up then 1 else -1);
                           metadata := None;
                           timestamp := Some (JS.Int clock) |})
                  b
  | inl err =>
      (st = None /\ Setup.getClient st = Setup.Thrown err st)
      \/ ((f ∉ Plugin.fields options)
          /\ Plugin.counterScope options doc f = inl err)
  end.
Proof.
  intros write.
  assert (write options doc st stringify clock f None
          = match Setup.getClient st with
            | Setup.Thrown err _ => inl err
            | Setup.Returned client _ =>
                match Plugin.counterScope options doc f with
                | inl err => inl err
                | inr sc =>
                    inr (CounterClient.add client stringify clock sc
                           (JS.Int (if up then 1 else -1)) None)
                end
            end) as ->
    by (unfold write; by destruct up).
  destruct st as [client|]; cbn [Setup.getClient]; [|by left].
  destruct (decide (f ∈ Plugin.fields options)) as [Hin | Hout].
  - rewrite (counterScope_declared options doc f Hin). split; [exact Hin|].
    destruct (add_ends_with_fields client stringify clock (scope_text options doc f)
                (JS.Int (if up then 1 else -1)) None) as (command & -> & Hhead & _).
    eexists client, command, _. split; [done|]. split; [done|]. split; [done|].
    assert (with_trace (trace b ++ []) b = b) as Hid
      by (rewrite app_nil_r; by destruct b).
    destruct (client_fields_parse stringify parse clock consumer_now "v"
                ("1:" ++ Plugin.prefix_of options doc ++ ":" ++ Plugin._id doc ++ ":" ++ f)
                (if up then 1 else -1) None b)
      as (md & t & E & Hnone & _).
    destruct (Hnone eq_refl) as (-> & ->). rewrite Hid in E. exact E.
  - destruct (Plugin.counterScope options doc f) as [err|sc] eqn:E.
    + right. by split.
    + destruct (counterScope_undeclared options doc f Hout) as (err & E').
      rewrite E in E'. discriminate.
Qed.

End PluginFacts.

(* ================================================================== *)
(** ** The client singleton and the logger *)
(* ================================================================== *)

Section SetupFacts.

(** X25.  The module holds at most one client.  In every state exactly
    one of [getClient] and [setup] succeeds: with a client [getClient]
    returns it and [setup] throws, leaving it in place; without one
    [setup] installs a client that owns its connection and [getClient]
    throws.  [shutdown] empties the module, except when the [quit] of the
    connection fails: then it throws and the client stays. *)
Theorem setup_holds_one_client (config : Setup.CounterBridgeSetupConfig)
    (quit : Outcome unit) (st : Setup.State) :
  match st with
  | Some client =>
      Setup.getClient st = Setup.Returned client st
      /\ (exists err, Setup.setup config st = Setup.Thrown err st)
  | None =>
      (exists err, Setup.getClient st = Setup.Thrown err st)
      /\ exists client,
           Setup.setup config st = Setup.Returned tt (Some client)
           /\ CounterClient.close client = true
           /\ CounterClient.streamKey client
              = default CounterClient.DEFAULT_STREAM_KEY (Setup.streamKey config)
           /\ Setup.shutdown quit (Some client)
              = match quit with
                | Resolves _ => Setup.Returned tt None
                | Rejects err => Setup.Thrown err (Some client)
                end
  end
  /\ match Setup.shutdown quit st with
     | Setup.Returned _ st' => st' = None
     | Setup.Thrown err st' => st' = st /\ quit = Rejects err /\ st <> None
     end.
Proof.
  destruct st as [client|]; cbn.
  - split; [split; [done | by eexists]|].
    destruct (CounterClient.close client); [|done].
    destruct quit; [done | by repeat split].
  - split; [|done]. split; [by eexists|]. eexists. by repeat split.
Qed.

End SetupFacts.

Section LoggerFacts.

(** X26.  The logger writes a message exactly when its level is at least
    the level of the logger: [error] is always written, [debug] only by
    a logger made for [debug], and the default logger starts at [info].
    In the entry written, the members of [data] come last: they are all
    there, and one named [msg], [level] or [timestamp] replaces the
    standard member. *)
Theorem logger_writes_from_its_level (lv : option Logger.LogLevel)
    (iso_now : string) (l : Logger.LogLevel) (msg : string)
    (data : gmap string JS.json) :
  (is_Some (Logger.log (Logger.new lv) iso_now l msg data)
   <-> (Logger.LEVELS (default Logger.info lv) <= Logger.LEVELS l)%nat)
  /\ is_Some (Logger.log (Logger.new lv) iso_now Logger.error msg data)
  /\ forall entry,
       Logger.log (Logger.new lv) iso_now l msg data = Some entry ->
       (forall k v, data !! k = Some v -> entry !! k = Some v)
       /\ entry !! "msg"%string = Some (default (JS.JString msg) (data !! "msg"%string))
       /\ entry !! "level"%string
          = Some (default (JS.JString (Logger.level_name l)) (data !! "level"%string))
       /\ entry !! "timestamp"%string
          = Some (default (JS.JString iso_now) (data !! "timestamp"%string))
       /\ dom entry = dom data ∪ {[ "timestamp"; "level"; "msg" ]}%string.
Proof.
  unfold Logger.log, Logger.new. cbn [Logger.level].
  split; [|split].
  - destruct (Logger.LEVELS l <? Logger.LEVELS (default Logger.info lv))%nat eqn:E.
    + apply Nat.ltb_lt in E. split; [by intros [? ?] | lia].
    + apply Nat.ltb_ge in E. split; [done | by eexists].
  - by destruct lv as [[]|].
  - intros entry.
    destruct (Logger.LEVELS l <? Logger.LEVELS (default Logger.info lv))%nat;
      [discriminate|].
    intros [= <-]. split; [|split; [|split; [|split]]].
    + intros k v Hk. by apply lookup_union_Some_l.
    + rewrite lookup_union. destruct (data !! "msg"%string); done.
    + rewrite lookup_union. destruct (data !! "level"%string); done.
    + rewrite lookup_union. destruct (data !! "timestamp"%string); done.
    + by rewrite dom_union_L, !dom_insert_L, dom_singleton_L.
Qed.

End LoggerFacts.
